(** * Exact-rational convex-hull traits (01-first-steps/part-vii.cpp)

    A shallow embedding of the [Frac] class, the [FracPoint2] class and the
    [Traits] predicates of [src/01-first-steps/part-vii.cpp].

    [ll] is [long long]: a 64-bit signed integer.  Signed overflow, division
    by zero and [std::gcd] on a value whose absolute value is not
    representable are undefined behaviour in C++; an operation that runs into
    one of them has no result, which is [None] here.  Every other result is
    the mathematical one, [Some z] with [z] in the range of [long long]. *)

From Stdlib Require Import ZArith QArith Bool Lia.

Local Open Scope Z_scope.

(** ** The error monad of undefined behaviour *)

Module UB.

Definition bind {A B : Type} (m : option A) (k : A -> option B) : option B :=
  match m with
  | Some a => k a
  | None => None
  end.

End UB.

Notation "x <- m ;; k" := (UB.bind m (fun x => k))
  (at level 61, m at next level, right associativity).

(** ** [long long] arithmetic *)

Module LL.

Definition ll_min : Z := - 2 ^ 63.
Definition ll_max : Z := 2 ^ 63 - 1.

(** [in_ll z]: [z] is representable as a [long long]. *)
Definition in_ll (z : Z) : bool := (ll_min <=? z) && (z <=? ll_max).

(** The result of an arithmetic expression of type [long long]. *)
Definition ll (z : Z) : option Z := if in_ll z then Some z else None.

Definition add (x y : Z) : option Z := ll (x + y).
Definition sub (x y : Z) : option Z := ll (x - y).
Definition mul (x y : Z) : option Z := ll (x * y).

(** [x / y] truncates towards zero. *)
Definition div (x y : Z) : option Z :=
  if y =? 0 then None else ll (Z.quot x y).

(** [std::gcd(m, n)]: the greatest common divisor of [|m|] and [|n|],
    never negative, zero when both are zero. *)
Definition gcd (m n : Z) : option Z :=
  if (m =? ll_min) || (n =? ll_min) then None else Some (Z.gcd m n).

End LL.

(** ** class Frac *)

Record Frac : Type := mkFrac { num : Z; den : Z }.

(** [Frac()], [Frac(ll num)] and [Frac(ll num, ll den)]. *)
Definition Frac_default : Frac := mkFrac 0 1.
Definition Frac_of_ll (n : Z) : Frac := mkFrac n 1.

Definition Frac_lt (a b : Frac) : option bool :=
  l <- LL.mul (num a) (den b) ;;
  r <- LL.mul (num b) (den a) ;;
  Some (l <? r).

Definition Frac_le (a b : Frac) : option bool :=
  l <- LL.mul (num a) (den b) ;;
  r <- LL.mul (num b) (den a) ;;
  Some (l <=? r).

Definition Frac_gt (a b : Frac) : option bool :=
  l <- LL.mul (num a) (den b) ;;
  r <- LL.mul (num b) (den a) ;;
  Some (l >? r).

Definition Frac_ge (a b : Frac) : option bool :=
  l <- LL.mul (num a) (den b) ;;
  r <- LL.mul (num b) (den a) ;;
  Some (l >=? r).

Definition Frac_eq (a b : Frac) : option bool :=
  l <- LL.mul (num a) (den b) ;;
  r <- LL.mul (num b) (den a) ;;
  Some (l =? r).

(** The tail shared by the four arithmetic operators:
<<
    ll new_gcd = std::gcd(new_num, new_den);
    if (new_gcd != 0) { new_num /= new_gcd; new_den /= new_gcd; }
    return {new_num, new_den};
>> *)
Definition reduce (new_num new_den : Z) : option Frac :=
  new_gcd <- LL.gcd new_num new_den ;;
  if negb (new_gcd =? 0) then
    new_num' <- LL.div new_num new_gcd ;;
    new_den' <- LL.div new_den new_gcd ;;
    Some (mkFrac new_num' new_den')
  else
    Some (mkFrac new_num new_den).

Definition Frac_add (a b : Frac) : option Frac :=
  l <- LL.mul (num a) (den b) ;;
  r <- LL.mul (den a) (num b) ;;
  new_num <- LL.add l r ;;
  new_den <- LL.mul (den a) (den b) ;;
  reduce new_num new_den.

Definition Frac_sub (a b : Frac) : option Frac :=
  l <- LL.mul (num a) (den b) ;;
  r <- LL.mul (den a) (num b) ;;
  new_num <- LL.sub l r ;;
  new_den <- LL.mul (den a) (den b) ;;
  reduce new_num new_den.

Definition Frac_mul (a b : Frac) : option Frac :=
  new_num <- LL.mul (num a) (num b) ;;
  new_den <- LL.mul (den a) (den b) ;;
  reduce new_num new_den.

Definition Frac_div (a b : Frac) : option Frac :=
  new_num <- LL.mul (num a) (den b) ;;
  new_den <- LL.mul (den a) (num b) ;;
  reduce new_num new_den.

Definition positive (a : Frac) : bool :=
  ((num a >? 0) && (den a >? 0)) || ((num a <? 0) && (den a <? 0)).

(** ** class FracPoint2 *)

Record FracPoint2 : Type := mkFracPoint2 { x : Frac; y : Frac }.

Definition FracPoint2_add (p q : FracPoint2) : option FracPoint2 :=
  px <- Frac_add (x p) (x q) ;;
  py <- Frac_add (y p) (y q) ;;
  Some (mkFracPoint2 px py).

Definition FracPoint2_sub (p q : FracPoint2) : option FracPoint2 :=
  px <- Frac_sub (x p) (x q) ;;
  py <- Frac_sub (y p) (y q) ;;
  Some (mkFracPoint2 px py).

(** [operator *(const Frac &s, const FracPoint2 &p)]. *)
Definition FracPoint2_scale_l (s : Frac) (p : FracPoint2) : option FracPoint2 :=
  px <- Frac_mul s (x p) ;;
  py <- Frac_mul s (y p) ;;
  Some (mkFracPoint2 px py).

(** [operator *(const FracPoint2 &p, const Frac &s)]. *)
Definition FracPoint2_scale_r (p : FracPoint2) (s : Frac) : option FracPoint2 :=
  px <- Frac_mul s (x p) ;;
  py <- Frac_mul s (y p) ;;
  Some (mkFracPoint2 px py).

Definition FracPoint2_div (p : FracPoint2) (s : Frac) : option FracPoint2 :=
  px <- Frac_div (x p) s ;;
  py <- Frac_div (y p) s ;;
  Some (mkFracPoint2 px py).

Definition cross (p q : FracPoint2) : option Frac :=
  l <- Frac_mul (x p) (y q) ;;
  r <- Frac_mul (x q) (y p) ;;
  Frac_sub l r.

(** ** class Traits *)

(** [p.x() < q.x() || (p.x() == q.x() && p.y() < q.y())]; [||] and [&&]
    evaluate their right operand only when the left one does not decide. *)
Definition Less_xy_2 (p q : FracPoint2) : option bool :=
  c <- Frac_lt (x p) (x q) ;;
  if c then Some true else
  e <- Frac_eq (x p) (x q) ;;
  if e then Frac_lt (y p) (y q) else Some false.

Definition Left_turn_2 (p0 p1 p2 : FracPoint2) : option bool :=
  u <- FracPoint2_sub p1 p0 ;;
  v <- FracPoint2_sub p2 p0 ;;
  tv <- cross u v ;;
  Some (positive tv).

Definition Equal_2 (p q : FracPoint2) : option bool :=
  e <- Frac_eq (x p) (x q) ;;
  if e then Frac_eq (y p) (y q) else Some false.

(** ** The rational number a fraction stands for *)

Definition value (a : Frac) : Q := (inject_Z (num a) / inject_Z (den a))%Q.

(** What [reduce] returns whenever it returns. *)
Definition lowest (n d : Z) : Frac :=
  if Z.gcd n d =? 0 then mkFrac n d
  else mkFrac (Z.quot n (Z.gcd n d)) (Z.quot d (Z.gcd n d)).

(** A point both of whose coordinates have a strictly positive
    denominator. *)
Definition pos_den (p : FracPoint2) : Prop := 0 < den (x p) /\ 0 < den (y p).

(** Three denominators of one strict sign: all strictly positive or all
    strictly negative. *)
Definition same_sign (d1 d2 d3 : Z) : Prop :=
  (0 < d1 /\ 0 < d2 /\ 0 < d3) \/ (d1 < 0 /\ d2 < 0 /\ d3 < 0).

(** A fraction whose numerator and denominator fit in 32 bits: the
    operators never overflow on such operands. *)
Definition small (a : Frac) : Prop :=
  Z.abs (num a) < 2 ^ 31 /\ Z.abs (den a) < 2 ^ 31.

(** [r] is the result of one of the four arithmetic operators on [a] and
    [b]. *)
Definition arith_result (a b r : Frac) : Prop :=
  Frac_add a b = Some r \/ Frac_sub a b = Some r \/
  Frac_mul a b = Some r \/ Frac_div a b = Some r.

(** A point both of whose coordinates have a non-zero denominator. *)
Definition nonzero_den (p : FracPoint2) : Prop :=
  den (x p) <> 0 /\ den (y p) <> 0.

(** The orientation determinant of three points, over the rational numbers
    their coordinates stand for. *)
Definition det (p0 p1 p2 : FracPoint2) : Q :=
  ((value (x p1) - value (x p0)) * (value (y p2) - value (y p0))
   - (value (x p2) - value (x p0)) * (value (y p1) - value (y p0)))%Q.

(** A fraction, and a point, whose numerators and denominators are below
    [B] in absolute value. *)
Definition bounded (B : Z) (a : Frac) : Prop :=
  Z.abs (num a) < B /\ Z.abs (den a) < B.

Definition bounded_point (B : Z) (p : FracPoint2) : Prop :=
  bounded B (x p) /\ bounded B (y p).

(** ** Inversion of the checked operations *)

Lemma bind_inv {A B : Type} (m : option A) (k : A -> option B) (r : B) :
  UB.bind m k = Some r -> exists a, m = Some a /\ k a = Some r.
Proof.
  destruct m as [a|]; simpl; intro H; [exists a; split; auto | discriminate].
Qed.

Lemma in_ll_iff (z : Z) :
  LL.in_ll z = true <-> LL.ll_min <= z <= LL.ll_max.
Proof.
  unfold LL.in_ll. rewrite andb_true_iff, !Z.leb_le. tauto.
Qed.

Lemma ll_inv (z v : Z) :
  LL.ll z = Some v -> v = z /\ LL.in_ll z = true.
Proof.
  unfold LL.ll. destruct (LL.in_ll z); intro H; inversion H; auto.
Qed.

Lemma ll_in_range (z : Z) : LL.in_ll z = true -> LL.ll z = Some z.
Proof. unfold LL.ll. intros ->. reflexivity. Qed.

Lemma div_inv (n g v : Z) :
  LL.div n g = Some v -> g <> 0 /\ v = Z.quot n g /\ LL.in_ll (Z.quot n g) = true.
Proof.
  unfold LL.div. destruct (Z.eqb_spec g 0) as [->|Hg]; [discriminate|].
  intro H. apply ll_inv in H. tauto.
Qed.

Lemma gcd_inv (m n g : Z) :
  LL.gcd m n = Some g -> g = Z.gcd m n /\ m <> LL.ll_min /\ n <> LL.ll_min.
Proof.
  unfold LL.gcd.
  destruct (Z.eqb_spec m LL.ll_min), (Z.eqb_spec n LL.ll_min); simpl;
    intro H; inversion H; auto.
Qed.

(** Peel the binds of a hypothesis [H : ... = Some r] one by one. *)
Ltac peel H :=
  repeat match type of H with
         | UB.bind _ _ = Some _ =>
             let v := fresh "v" in
             let E := fresh "E" in
             apply bind_inv in H; destruct H as (v & E & H)
         end.

Ltac ll_facts :=
  repeat match goal with
         | H : LL.mul _ _ = Some _ |- _ =>
             unfold LL.mul in H; apply ll_inv in H; destruct H as [-> H]
         | H : LL.add _ _ = Some _ |- _ =>
             unfold LL.add in H; apply ll_inv in H; destruct H as [-> H]
         | H : LL.sub _ _ = Some _ |- _ =>
             unfold LL.sub in H; apply ll_inv in H; destruct H as [-> H]
         end.

(** ** Fractions in lowest terms *)

Lemma reduce_inv (n d : Z) (r : Frac) :
  reduce n d = Some r -> r = lowest n d.
Proof.
  unfold reduce, lowest. intro H. peel H.
  apply gcd_inv in E. destruct E as (-> & _ & _).
  destruct (Z.eqb_spec (Z.gcd n d) 0) as [Hz|Hz]; simpl in H.
  - inversion H. reflexivity.
  - peel H. apply div_inv in E, E0.
    destruct E as (_ & -> & _), E0 as (_ & -> & _). inversion H. reflexivity.
Qed.

Lemma quot_gcd_l (n d : Z) : Z.quot n (Z.gcd n d) * Z.gcd n d = n.
Proof.
  destruct (Z.eq_dec (Z.gcd n d) 0) as [Hz|Hz].
  - rewrite Hz. apply Z.gcd_eq_0_l in Hz. subst n. reflexivity.
  - destruct (Z.gcd_divide_l n d) as [k Hk].
    rewrite Hk at 1. rewrite Z.quot_mul by assumption. symmetry. exact Hk.
Qed.

Lemma quot_gcd_r (n d : Z) : Z.quot d (Z.gcd n d) * Z.gcd n d = d.
Proof.
  rewrite (Z.gcd_comm n d). apply quot_gcd_l.
Qed.

Lemma lowest_num (n d : Z) : num (lowest n d) * Z.gcd n d = n.
Proof.
  unfold lowest. destruct (Z.eqb_spec (Z.gcd n d) 0) as [Hz|Hz]; simpl.
  - rewrite Hz. apply Z.gcd_eq_0_l in Hz. lia.
  - apply quot_gcd_l.
Qed.

Lemma lowest_den (n d : Z) : den (lowest n d) * Z.gcd n d = d.
Proof.
  unfold lowest. destruct (Z.eqb_spec (Z.gcd n d) 0) as [Hz|Hz]; simpl.
  - rewrite Hz. apply Z.gcd_eq_0_r in Hz. lia.
  - apply quot_gcd_r.
Qed.

Lemma lowest_coprime (n d : Z) :
  den (lowest n d) <> 0 ->
  Z.gcd (Z.abs (num (lowest n d))) (Z.abs (den (lowest n d))) = 1.
Proof.
  intro Hd. rewrite Z.gcd_abs_l, Z.gcd_abs_r.
  pose proof (lowest_num n d) as Hn. pose proof (lowest_den n d) as Hd'.
  pose proof (Z.gcd_nonneg n d) as Hg.
  assert (Hg0 : Z.gcd n d <> 0).
  { intro Hz. apply Hd.
    pose proof (Z.gcd_eq_0_l _ _ Hz). pose proof (Z.gcd_eq_0_r _ _ Hz).
    subst n d. reflexivity. }
  pose proof (Z.gcd_mul_mono_r_nonneg (num (lowest n d)) (den (lowest n d))
                (Z.gcd n d) Hg) as Hm.
  rewrite Hn, Hd' in Hm.
  pose proof (Z.gcd_nonneg (num (lowest n d)) (den (lowest n d))) as Hg'.
  nia.
Qed.

(** ** The value of a fraction *)

Lemma value_pos_den (a : Frac) :
  0 < den a -> (value a == num a # Z.to_pos (den a))%Q.
Proof.
  unfold value, Qdiv, Qinv, Qmult, Qeq, inject_Z. destruct a as [n d]; simpl.
  destruct d as [|p|p]; intro H; try lia. simpl. lia.
Qed.

Lemma value_neg_den (a : Frac) :
  den a < 0 -> (value a == - num a # Z.to_pos (- den a))%Q.
Proof.
  unfold value, Qdiv, Qinv, Qmult, Qeq, inject_Z. destruct a as [n d]; simpl.
  destruct d as [|p|p]; intro H; try lia. simpl. lia.
Qed.

(** ** Comparison operators *)

Section Comparison.

Variables a b : Frac.
Hypothesis Hl : LL.in_ll (num a * den b) = true.
Hypothesis Hr : LL.in_ll (num b * den a) = true.

Lemma cmp_defined (f : Z -> Z -> bool) :
  (l <- LL.mul (num a) (den b) ;; r <- LL.mul (num b) (den a) ;; Some (f l r))
  = Some (f (num a * den b) (num b * den a)).
Proof.
  unfold LL.mul. rewrite (ll_in_range _ Hl), (ll_in_range _ Hr). reflexivity.
Qed.

Lemma Frac_lt_defined :
  Frac_lt a b = Some (num a * den b <? num b * den a).
Proof. exact (cmp_defined Z.ltb). Qed.

Lemma Frac_le_defined :
  Frac_le a b = Some (num a * den b <=? num b * den a).
Proof. exact (cmp_defined Z.leb). Qed.

Lemma Frac_gt_defined :
  Frac_gt a b = Some (num a * den b >? num b * den a).
Proof. exact (cmp_defined Z.gtb). Qed.

Lemma Frac_ge_defined :
  Frac_ge a b = Some (num a * den b >=? num b * den a).
Proof. exact (cmp_defined Z.geb). Qed.

Lemma Frac_eq_defined :
  Frac_eq a b = Some (num a * den b =? num b * den a).
Proof. exact (cmp_defined Z.eqb). Qed.

End Comparison.

Lemma Some_true_iff (c : bool) : Some c = Some true <-> c = true.
Proof. split; [intro H; inversion H; reflexivity | intros ->; reflexivity]. Qed.

Section ValueOrder.

Variables a b : Frac.
Hypothesis Ha : 0 < den a.
Hypothesis Hb : 0 < den b.

Lemma value_lt_iff :
  (value a < value b)%Q <-> num a * den b < num b * den a.
Proof.
  rewrite (value_pos_den a Ha), (value_pos_den b Hb).
  unfold Qlt; simpl. rewrite !Z2Pos.id by assumption. tauto.
Qed.

Lemma value_le_iff :
  (value a <= value b)%Q <-> num a * den b <= num b * den a.
Proof.
  rewrite (value_pos_den a Ha), (value_pos_den b Hb).
  unfold Qle; simpl. rewrite !Z2Pos.id by assumption. tauto.
Qed.

Lemma value_eq_iff :
  (value a == value b)%Q <-> num a * den b = num b * den a.
Proof.
  rewrite (value_pos_den a Ha), (value_pos_den b Hb).
  unfold Qeq; simpl. rewrite !Z2Pos.id by assumption. tauto.
Qed.

End ValueOrder.

(** C1.  When the two cross products [a.num()*b.den()] and
    [b.num()*a.den()] are representable, each of [<], [<=], [>], [>=] and
    [==] returns the result of that test on them; consequently, when both
    denominators are strictly positive, each operator returns [true] exactly
    when the same comparison holds between the rational numbers
    [a.num()/a.den()] and [b.num()/b.den()]. *)
Theorem Frac_compare_cross_multiplication (a b : Frac) :
  LL.in_ll (num a * den b) = true ->
  LL.in_ll (num b * den a) = true ->
  (Frac_lt a b = Some (num a * den b <? num b * den a) /\
   Frac_le a b = Some (num a * den b <=? num b * den a) /\
   Frac_gt a b = Some (num a * den b >? num b * den a) /\
   Frac_ge a b = Some (num a * den b >=? num b * den a) /\
   Frac_eq a b = Some (num a * den b =? num b * den a)) /\
  (0 < den a -> 0 < den b ->
   (Frac_lt a b = Some true <-> (value a < value b)%Q) /\
   (Frac_le a b = Some true <-> (value a <= value b)%Q) /\
   (Frac_gt a b = Some true <-> (value a > value b)%Q) /\
   (Frac_ge a b = Some true <-> (value a >= value b)%Q) /\
   (Frac_eq a b = Some true <-> (value a == value b)%Q)).
Proof.
  intros Hl Hr. split.
  - repeat split;
      [ apply Frac_lt_defined | apply Frac_le_defined | apply Frac_gt_defined
      | apply Frac_ge_defined | apply Frac_eq_defined ]; assumption.
  - intros Ha Hb.
    rewrite (Frac_lt_defined a b Hl Hr), (Frac_le_defined a b Hl Hr),
      (Frac_gt_defined a b Hl Hr), (Frac_ge_defined a b Hl Hr),
      (Frac_eq_defined a b Hl Hr), !Some_true_iff.
    rewrite (value_lt_iff a b Ha Hb), (value_le_iff a b Ha Hb),
      (value_lt_iff b a Hb Ha), (value_le_iff b a Hb Ha),
      (value_eq_iff a b Ha Hb).
    rewrite Z.ltb_lt, Z.leb_le, Z.gtb_gt, Z.geb_ge, Z.eqb_eq.
    repeat split; lia.
Qed.

Lemma Frac_compare_cross_multiplication_witness :
  Frac_lt (mkFrac 1 2) (mkFrac 2 3) = Some true /\
  (value (mkFrac 1 2) < value (mkFrac 2 3))%Q.
Proof.
  destruct (Frac_compare_cross_multiplication (mkFrac 1 2) (mkFrac 2 3)
              eq_refl eq_refl) as [(Hlt & _) Hv].
  split; [exact Hlt|].
  destruct (Hv ltac:(simpl; lia) ltac:(simpl; lia)) as [Hq _].
  apply Hq. exact Hlt.
Defined.

(** ** [positive] *)

Lemma positive_iff_sign (a : Frac) :
  positive a = true <->
  (0 < num a /\ 0 < den a) \/ (num a < 0 /\ den a < 0).
Proof.
  unfold positive.
  rewrite orb_true_iff, !andb_true_iff, !Z.gtb_gt, !Z.ltb_lt. lia.
Qed.

Lemma value_zero_den (a : Frac) : den a = 0 -> (value a == 0)%Q.
Proof.
  unfold value, Qdiv, Qinv, Qmult, Qeq, inject_Z. destruct a as [n d]; simpl.
  intros ->. simpl. lia.
Qed.

Lemma positive_iff_value (a : Frac) :
  positive a = true <-> (0 < value a)%Q.
Proof.
  rewrite positive_iff_sign.
  destruct (Z.lt_total (den a) 0) as [Hneg|[Hz|Hpos]].
  - rewrite (value_neg_den a Hneg). unfold Qlt; simpl. lia.
  - rewrite (value_zero_den a Hz). unfold Qlt; simpl. lia.
  - rewrite (value_pos_den a Hpos). unfold Qlt; simpl. lia.
Qed.

(** C4.  [positive()] returns [true] exactly when numerator and denominator
    have the same strict sign; a zero numerator is never positive; and for
    every non-zero denominator, of either sign, the result is [true] exactly
    when the rational number [a.num()/a.den()] is strictly greater than
    zero. *)
Theorem positive_same_strict_sign (a : Frac) :
  (positive a = true <->
   (0 < num a /\ 0 < den a) \/ (num a < 0 /\ den a < 0)) /\
  (num a = 0 -> positive a = false) /\
  (den a <> 0 -> (positive a = true <-> (0 < value a)%Q)).
Proof.
  split; [apply positive_iff_sign|]. split.
  - intro Hn. apply not_true_is_false. intro E.
    apply positive_iff_sign in E. lia.
  - intros _. apply positive_iff_value.
Qed.

Lemma positive_same_strict_sign_witness :
  positive (mkFrac 0 5) = false /\
  (positive (mkFrac (-3) (-2)) = true <-> (0 < value (mkFrac (-3) (-2)))%Q).
Proof.
  split.
  - exact (proj1 (proj2 (positive_same_strict_sign (mkFrac 0 5))) eq_refl).
  - apply (proj2 (proj2 (positive_same_strict_sign (mkFrac (-3) (-2))))).
    simpl. lia.
Defined.

(** ** Arithmetic operators *)

Lemma Frac_add_inv (a b r : Frac) :
  Frac_add a b = Some r ->
  r = lowest (num a * den b + den a * num b) (den a * den b).
Proof.
  unfold Frac_add. intro H. peel H. ll_facts. apply reduce_inv. exact H.
Qed.

Lemma Frac_sub_inv (a b r : Frac) :
  Frac_sub a b = Some r ->
  r = lowest (num a * den b - den a * num b) (den a * den b).
Proof.
  unfold Frac_sub. intro H. peel H. ll_facts. apply reduce_inv. exact H.
Qed.

Lemma Frac_mul_inv (a b r : Frac) :
  Frac_mul a b = Some r ->
  r = lowest (num a * num b) (den a * den b).
Proof.
  unfold Frac_mul. intro H. peel H. ll_facts. apply reduce_inv. exact H.
Qed.

Lemma Frac_div_inv (a b r : Frac) :
  Frac_div a b = Some r ->
  r = lowest (num a * den b) (den a * num b).
Proof.
  unfold Frac_div. intro H. peel H. ll_facts. apply reduce_inv. exact H.
Qed.

(** C2.  The result [r] of [a+b], [a-b], [a*b] and [a/b] is the computed
    numerator and denominator divided by their greatest common divisor, the
    division being skipped only when that divisor is zero ([lowest]), and
    whenever [r.den()] is non-zero, [gcd(|r.num()|, |r.den()|) = 1].  This
    holds in particular for operands with non-zero denominators and for
    results that are not zero. *)
Theorem arithmetic_results_reduced (a b r : Frac) :
  (Frac_add a b = Some r ->
   r = lowest (num a * den b + den a * num b) (den a * den b)) /\
  (Frac_sub a b = Some r ->
   r = lowest (num a * den b - den a * num b) (den a * den b)) /\
  (Frac_mul a b = Some r -> r = lowest (num a * num b) (den a * den b)) /\
  (Frac_div a b = Some r -> r = lowest (num a * den b) (den a * num b)) /\
  (Frac_add a b = Some r \/ Frac_sub a b = Some r \/
   Frac_mul a b = Some r \/ Frac_div a b = Some r ->
   den r <> 0 ->
   Z.gcd (Z.abs (num r)) (Z.abs (den r)) = 1).
Proof.
  repeat split;
    [ apply Frac_add_inv | apply Frac_sub_inv
    | apply Frac_mul_inv | apply Frac_div_inv | ].
  intros [H|[H|[H|H]]] Hd;
    [ apply Frac_add_inv in H | apply Frac_sub_inv in H
    | apply Frac_mul_inv in H | apply Frac_div_inv in H ];
    subst r; apply lowest_coprime; exact Hd.
Qed.

Lemma arithmetic_results_reduced_witness :
  Frac_add (mkFrac 1 6) (mkFrac 1 3) = Some (mkFrac 1 2) /\
  Z.gcd (Z.abs 1) (Z.abs 2) = 1.
Proof.
  split; [reflexivity|].
  apply (proj2 (proj2 (proj2 (proj2
           (arithmetic_results_reduced (mkFrac 1 6) (mkFrac 1 3) (mkFrac 1 2)))))).
  - left. reflexivity.
  - simpl. lia.
Defined.

Lemma Frac_add_comm (a b : Frac) : Frac_add a b = Frac_add b a.
Proof.
  unfold Frac_add, LL.mul, LL.add.
  rewrite (Z.mul_comm (num b) (den a)), (Z.mul_comm (den b) (num a)),
    (Z.mul_comm (den b) (den a)).
  destruct (LL.ll (num a * den b)) as [l|], (LL.ll (den a * num b)) as [r|];
    simpl; try reflexivity.
  rewrite (Z.add_comm r l). reflexivity.
Qed.

Lemma Frac_mul_comm (a b : Frac) : Frac_mul a b = Frac_mul b a.
Proof.
  unfold Frac_mul, LL.mul.
  rewrite (Z.mul_comm (num b) (num a)), (Z.mul_comm (den b) (den a)).
  reflexivity.
Qed.

Lemma Frac_eq_refl (r : Frac) (t : bool) : Frac_eq r r = Some t -> t = true.
Proof.
  unfold Frac_eq. intro H. peel H. ll_facts. inversion H.
  apply Z.eqb_refl.
Qed.

(** C5.  For [a] and [b] with strictly positive denominators the two sums
    [a + b] and [b + a] are the same fraction, and so are the two products;
    hence [a + b == b + a] and [a * b == b * a] evaluate to [true]. *)
Theorem Frac_add_mul_commutative (a b : Frac) :
  0 < den a -> 0 < den b ->
  (Frac_add a b = Frac_add b a /\
   forall t, (l <- Frac_add a b ;; r <- Frac_add b a ;; Frac_eq l r) = Some t ->
             t = true) /\
  (Frac_mul a b = Frac_mul b a /\
   forall t, (l <- Frac_mul a b ;; r <- Frac_mul b a ;; Frac_eq l r) = Some t ->
             t = true).
Proof.
  intros _ _. split; split.
  - apply Frac_add_comm.
  - intros t H. rewrite (Frac_add_comm b a) in H. peel H.
    rewrite E in E0. inversion E0. subst. eapply Frac_eq_refl. exact H.
  - apply Frac_mul_comm.
  - intros t H. rewrite (Frac_mul_comm b a) in H. peel H.
    rewrite E in E0. inversion E0. subst. eapply Frac_eq_refl. exact H.
Qed.

Lemma Frac_add_mul_commutative_witness :
  0 < den (mkFrac 1 2) /\ 0 < den (mkFrac 2 3) /\
  (exists t, (l <- Frac_add (mkFrac 1 2) (mkFrac 2 3) ;;
              r <- Frac_add (mkFrac 2 3) (mkFrac 1 2) ;; Frac_eq l r) = Some t /\
             t = true) /\
  (exists t, (l <- Frac_mul (mkFrac 1 2) (mkFrac 2 3) ;;
              r <- Frac_mul (mkFrac 2 3) (mkFrac 1 2) ;; Frac_eq l r) = Some t /\
             t = true).
Proof.
  assert (Ha : 0 < den (mkFrac 1 2)) by (simpl; lia).
  assert (Hb : 0 < den (mkFrac 2 3)) by (simpl; lia).
  destruct (Frac_add_mul_commutative (mkFrac 1 2) (mkFrac 2 3) Ha Hb)
    as [[_ Hadd] [_ Hmul]].
  repeat split; try assumption.
  - exists true. split; [reflexivity | apply Hadd; reflexivity].
  - exists true. split; [reflexivity | apply Hmul; reflexivity].
Defined.

Lemma lowest_num_0 (d : Z) : num (lowest 0 d) = 0.
Proof.
  unfold lowest. destruct (Z.eqb_spec (Z.gcd 0 d) 0) as [Hz|Hz]; simpl.
  - reflexivity.
  - apply Z.quot_0_l. exact Hz.
Qed.

Lemma lowest_0_r (n : Z) : lowest n 0 = mkFrac (Z.sgn n) 0.
Proof.
  unfold lowest. rewrite Z.gcd_0_r.
  destruct n as [|p|p]; simpl; try reflexivity.
  - f_equal. change (Z.quot (Z.pos p) (Z.pos p) = 1).
    apply Z.quot_same. discriminate.
  - f_equal. change (Z.quot (- Z.pos p) (Z.pos p) = - (1)).
    rewrite Z.quot_opp_l by discriminate. f_equal.
    apply Z.quot_same. discriminate.
Qed.

Lemma lowest_diag (m : Z) : lowest m m = mkFrac (Z.sgn m) (Z.sgn m).
Proof.
  unfold lowest. rewrite Z.gcd_diag.
  destruct m as [|p|p]; simpl; try reflexivity.
  - assert (H : Z.quot (Z.pos p) (Z.pos p) = 1)
      by (apply Z.quot_same; discriminate).
    simpl in H. rewrite H. reflexivity.
  - assert (H : Z.quot (- Z.pos p) (Z.pos p) = - (1)).
    { rewrite Z.quot_opp_l by discriminate. f_equal.
      apply Z.quot_same. discriminate. }
    simpl in H. rewrite H. reflexivity.
Qed.

(** C6.  [a - a == 0], where [0] is the default fraction [0/1], and
    [a / a == 1], where [1] is the fraction [1/1], for a non-zero numerator
    of [a]: whenever the difference, or the quotient, is computed, the
    comparison with [0], or with [1], returns [true]. *)
Theorem Frac_sub_self_div_self (a : Frac) :
  (forall r, Frac_sub a a = Some r -> Frac_eq r Frac_default = Some true) /\
  (num a <> 0 ->
   forall r, Frac_div a a = Some r -> Frac_eq r (Frac_of_ll 1) = Some true).
Proof.
  split.
  - intros r H. apply Frac_sub_inv in H.
    replace (num a * den a - den a * num a) with 0 in H by ring.
    unfold Frac_eq, Frac_default, LL.mul; simpl num; simpl den.
    subst r. rewrite lowest_num_0. reflexivity.
  - intros _ r H. apply Frac_div_inv in H.
    rewrite (Z.mul_comm (den a) (num a)), lowest_diag in H. subst r.
    destruct (num a * den a) as [|p|p]; reflexivity.
Qed.

Lemma Frac_sub_self_div_self_witness :
  Frac_eq (mkFrac 0 1) Frac_default = Some true /\
  Frac_eq (mkFrac (-1) (-1)) (Frac_of_ll 1) = Some true.
Proof.
  split.
  - apply (proj1 (Frac_sub_self_div_self (mkFrac 6 4))). reflexivity.
  - apply (proj2 (Frac_sub_self_div_self (mkFrac 6 (-4)))).
    + simpl. lia.
    + reflexivity.
Defined.

(** ** Points and predicates *)

(** C9.  [p * s] and [s * p] are the same computation,
    [{s * p.x(), s * p.y()}], and return points with the same numerator and
    the same denominator in each coordinate. *)
Theorem scalar_multiplication_sides_identical (s : Frac) (p : FracPoint2) :
  FracPoint2_scale_r p s = FracPoint2_scale_l s p /\
  FracPoint2_scale_r p s =
    (px <- Frac_mul s (x p) ;; py <- Frac_mul s (y p) ;;
     Some (mkFracPoint2 px py)) /\
  forall l r,
    FracPoint2_scale_r p s = Some r -> FracPoint2_scale_l s p = Some l ->
    num (x r) = num (x l) /\ den (x r) = den (x l) /\
    num (y r) = num (y l) /\ den (y r) = den (y l).
Proof.
  split; [reflexivity|]. split; [reflexivity|].
  intros l r Hr Hl. unfold FracPoint2_scale_r in Hr.
  unfold FracPoint2_scale_l in Hl. rewrite Hr in Hl. inversion Hl.
  repeat split.
Qed.

Lemma scalar_multiplication_sides_identical_witness :
  FracPoint2_scale_r (mkFracPoint2 (mkFrac 1 2) (mkFrac 3 4)) (mkFrac 2 3)
  = Some (mkFracPoint2 (mkFrac 1 3) (mkFrac 1 2)) /\
  num (x (mkFracPoint2 (mkFrac 1 3) (mkFrac 1 2))) = 1.
Proof.
  split; [reflexivity|].
  exact (proj1 (proj2 (proj2 (scalar_multiplication_sides_identical
           (mkFrac 2 3) (mkFracPoint2 (mkFrac 1 2) (mkFrac 3 4))))
           (mkFracPoint2 (mkFrac 1 3) (mkFrac 1 2))
           (mkFracPoint2 (mkFrac 1 3) (mkFrac 1 2)) eq_refl eq_refl)).
Defined.

(** ** When the reduction is defined *)

Lemma quot_gcd_between (n d : Z) :
  0 <= Z.quot n (Z.gcd n d) <= n \/ n <= Z.quot n (Z.gcd n d) <= 0.
Proof.
  pose proof (quot_gcd_l n d) as H. pose proof (Z.gcd_nonneg n d) as Hg.
  destruct (Z.eq_dec (Z.gcd n d) 0) as [Hz|Hz].
  - rewrite Hz in *. rewrite Z.quot_0_r_ext in * by reflexivity. lia.
  - remember (Z.quot n (Z.gcd n d)) as q eqn:Eq.
    remember (Z.gcd n d) as g eqn:Eg. clear Eq Eg. subst n. nia.
Qed.

Lemma in_ll_quot_gcd (n d : Z) :
  LL.in_ll n = true -> LL.in_ll (Z.quot n (Z.gcd n d)) = true.
Proof.
  rewrite !in_ll_iff. pose proof (quot_gcd_between n d).
  change LL.ll_min with (-9223372036854775808).
  change LL.ll_max with 9223372036854775807. lia.
Qed.

Lemma reduce_defined (n d : Z) :
  LL.in_ll n = true -> LL.in_ll d = true ->
  n <> LL.ll_min -> d <> LL.ll_min ->
  reduce n d = Some (lowest n d).
Proof.
  intros Hn Hd Hn' Hd'. unfold reduce, LL.gcd, lowest.
  apply Z.eqb_neq in Hn', Hd'. rewrite Hn', Hd'. simpl.
  destruct (Z.eqb_spec (Z.gcd n d) 0) as [Hz|Hz]; simpl; [reflexivity|].
  unfold LL.div. apply Z.eqb_neq in Hz. rewrite Hz.
  rewrite (ll_in_range _ (in_ll_quot_gcd n d Hn)). simpl.
  rewrite (Z.gcd_comm n d) at 1 2.
  rewrite (ll_in_range _ (in_ll_quot_gcd d n Hd)). simpl.
  rewrite (Z.gcd_comm d n). reflexivity.
Qed.

(** C10.  Dividing by a fraction whose numerator is zero reports no error:
    when the product [a.num()*b.den()] is representable (and [std::gcd] is
    defined on it), [a / b] returns a fraction with denominator zero, namely
    [(sign(a.num()*b.den()), 0)] when that product is non-zero and [(0, 0)]
    when it is zero, the one case in which the reduction is skipped. *)
Theorem Frac_div_by_zero_numerator (a b : Frac) :
  num b = 0 ->
  LL.in_ll (num a * den b) = true ->
  num a * den b <> LL.ll_min ->
  exists r,
    Frac_div a b = Some r /\ den r = 0 /\
    (num a * den b <> 0 -> r = mkFrac (Z.sgn (num a * den b)) 0) /\
    (num a * den b = 0 -> r = mkFrac 0 0).
Proof.
  intros Hb Hn Hmin. exists (mkFrac (Z.sgn (num a * den b)) 0).
  repeat split.
  - unfold Frac_div, LL.mul. rewrite Hb, Z.mul_0_r.
    rewrite (ll_in_range _ Hn). simpl.
    rewrite reduce_defined; try assumption; try reflexivity.
    + rewrite lowest_0_r. reflexivity.
    + discriminate.
  - intros ->. reflexivity.
Qed.

Lemma Frac_div_by_zero_numerator_witness :
  Frac_div (mkFrac (-3) 4) (mkFrac 0 5) = Some (mkFrac (-1) 0) /\
  Frac_div (mkFrac 0 4) (mkFrac 0 5) = Some (mkFrac 0 0).
Proof.
  split.
  - destruct (Frac_div_by_zero_numerator (mkFrac (-3) 4) (mkFrac 0 5)
                eq_refl eq_refl ltac:(discriminate)) as (r & Hr & _ & Hs & _).
    rewrite Hr. f_equal. apply Hs. discriminate.
  - destruct (Frac_div_by_zero_numerator (mkFrac 0 4) (mkFrac 0 5)
                eq_refl eq_refl ltac:(discriminate)) as (r & Hr & _ & _ & Hz).
    rewrite Hr. f_equal. apply Hz. reflexivity.
Defined.

(** ** The turn predicate *)

Lemma lowest_opp (n d : Z) :
  lowest (- n) d = mkFrac (- num (lowest n d)) (den (lowest n d)).
Proof.
  unfold lowest. rewrite Z.gcd_opp_l.
  destruct (Z.eqb_spec (Z.gcd n d) 0) as [Hz|Hz]; simpl; [reflexivity|].
  rewrite Z.quot_opp_l by assumption. reflexivity.
Qed.

Lemma in_ll_opp (n : Z) :
  LL.in_ll n = true -> n <> LL.ll_min -> LL.in_ll (- n) = true.
Proof.
  rewrite !in_ll_iff.
  change LL.ll_min with (-9223372036854775808).
  change LL.ll_max with 9223372036854775807. lia.
Qed.

Lemma reduce_defined_inv (n d : Z) (r : Frac) :
  reduce n d = Some r -> n <> LL.ll_min /\ d <> LL.ll_min.
Proof.
  unfold reduce. intro H. peel H. apply gcd_inv in E. tauto.
Qed.

(** Swapping the operands of a defined subtraction negates the numerator
    and keeps the denominator. *)
Lemma Frac_sub_swap (u v t : Frac) :
  Frac_sub u v = Some t ->
  Frac_sub v u = Some (mkFrac (- num t) (den t)).
Proof.
  unfold Frac_sub. intro H. peel H. ll_facts.
  destruct (reduce_defined_inv _ _ _ H) as [Hn Hd].
  apply reduce_inv in H. subst t.
  unfold LL.mul, LL.sub.
  rewrite (Z.mul_comm (num v) (den u)), (Z.mul_comm (den v) (num u)),
    (Z.mul_comm (den v) (den u)).
  rewrite (ll_in_range _ E0), (ll_in_range _ E); simpl.
  replace (den u * num v - num u * den v)
    with (- (num u * den v - den u * num v)) by ring.
  rewrite (ll_in_range _ (in_ll_opp _ E1 Hn)), (ll_in_range _ E2); simpl.
  rewrite reduce_defined.
  - rewrite lowest_opp. reflexivity.
  - apply in_ll_opp; assumption.
  - assumption.
  - intro Hm. apply in_ll_iff in E1. revert E1 Hm.
    change LL.ll_min with (-9223372036854775808).
    change LL.ll_max with 9223372036854775807. lia.
  - assumption.
Qed.

Lemma cross_swap (p q : FracPoint2) (t : Frac) :
  cross p q = Some t -> cross q p = Some (mkFrac (- num t) (den t)).
Proof.
  unfold cross. intro H. peel H. rewrite E0, E. simpl.
  apply Frac_sub_swap. exact H.
Qed.

Lemma positive_opp (t : Frac) :
  positive t = true -> positive (mkFrac (- num t) (den t)) = false.
Proof.
  intro H. apply not_true_is_false. intro H'.
  apply positive_iff_sign in H, H'. simpl in H'. lia.
Qed.

(** C3.  [Left_turn_2(p0, p1, p2)] returns [true] exactly when the cross
    product of [p1 - p0] and [p2 - p0] is a positive rational number, and
    whenever it returns [true], [Left_turn_2(p0, p2, p1)] returns [false].
    A triple for which it returns [true] is never collinear, so the claim's
    restriction to non-collinear triples costs nothing. *)
Theorem Left_turn_2_antisymmetric (p0 p1 p2 : FracPoint2) :
  (forall t, Left_turn_2 p0 p1 p2 = Some t ->
     exists tv,
       (u <- FracPoint2_sub p1 p0 ;; v <- FracPoint2_sub p2 p0 ;; cross u v)
       = Some tv /\
       (t = true <-> (0 < value tv)%Q)) /\
  (Left_turn_2 p0 p1 p2 = Some true -> Left_turn_2 p0 p2 p1 = Some false).
Proof.
  split.
  - unfold Left_turn_2. intros t H. peel H. exists v1. split.
    + rewrite E, E0. simpl. exact E1.
    + inversion H. apply positive_iff_value.
  - unfold Left_turn_2. intro H. peel H. rewrite E0, E. simpl.
    rewrite (cross_swap _ _ _ E1). simpl. f_equal.
    apply positive_opp. inversion H. reflexivity.
Qed.

Lemma Left_turn_2_antisymmetric_witness :
  Left_turn_2 (mkFracPoint2 (mkFrac 0 1) (mkFrac 0 1))
              (mkFracPoint2 (mkFrac 1 1) (mkFrac 0 1))
              (mkFracPoint2 (mkFrac 1 2) (mkFrac 1 4)) = Some true /\
  Left_turn_2 (mkFracPoint2 (mkFrac 0 1) (mkFrac 0 1))
              (mkFracPoint2 (mkFrac 1 2) (mkFrac 1 4))
              (mkFracPoint2 (mkFrac 1 1) (mkFrac 0 1)) = Some false.
Proof.
  split; [reflexivity|].
  apply (proj2 (Left_turn_2_antisymmetric _ _ _)). reflexivity.
Defined.

(** ** The ordering predicate *)

Lemma Frac_lt_inv (a b : Frac) (t : bool) :
  Frac_lt a b = Some t -> t = (num a * den b <? num b * den a).
Proof.
  unfold Frac_lt. intro H. peel H. ll_facts. inversion H. reflexivity.
Qed.

Lemma Frac_eq_inv (a b : Frac) (t : bool) :
  Frac_eq a b = Some t -> t = (num a * den b =? num b * den a).
Proof.
  unfold Frac_eq. intro H. peel H. ll_facts. inversion H. reflexivity.
Qed.

Lemma Less_xy_2_inv (p q : FracPoint2) (t : bool) :
  Less_xy_2 p q = Some t ->
  t = (num (x p) * den (x q) <? num (x q) * den (x p))
      || ((num (x p) * den (x q) =? num (x q) * den (x p))
          && (num (y p) * den (y q) <? num (y q) * den (y p))).
Proof.
  unfold Less_xy_2. intro H. peel H.
  apply Frac_lt_inv in E. rewrite <- E.
  destruct v; [inversion H; reflexivity|]. peel H.
  apply Frac_eq_inv in E0. rewrite <- E0.
  destruct v; [|inversion H; reflexivity].
  apply Frac_lt_inv in H. exact H.
Qed.

Lemma Equal_2_inv (p q : FracPoint2) (t : bool) :
  Equal_2 p q = Some t ->
  t = (num (x p) * den (x q) =? num (x q) * den (x p))
      && (num (y p) * den (y q) =? num (y q) * den (y p)).
Proof.
  unfold Equal_2. intro H. peel H.
  apply Frac_eq_inv in E. rewrite <- E.
  destruct v; [|inversion H; reflexivity].
  apply Frac_eq_inv in H. exact H.
Qed.

Lemma cross_lt_trans (n1 d1 n2 d2 n3 d3 : Z) :
  0 < d1 -> 0 < d2 -> 0 < d3 ->
  n1 * d2 < n2 * d1 -> n2 * d3 < n3 * d2 -> n1 * d3 < n3 * d1.
Proof.
  intros H1 H2 H3 A B. apply (Z.mul_lt_mono_pos_r d2); [assumption|].
  apply Z.lt_trans with (n2 * d1 * d3); nia.
Qed.

Lemma cross_eq_trans (n1 d1 n2 d2 n3 d3 : Z) :
  0 < d2 ->
  n1 * d2 = n2 * d1 -> n2 * d3 = n3 * d2 -> n1 * d3 = n3 * d1.
Proof.
  intros H2 A B. apply (Z.mul_cancel_r _ _ d2); [lia|].
  transitivity (n2 * d1 * d3).
  - rewrite <- A. ring.
  - replace (n2 * d1 * d3) with (n2 * d3 * d1) by ring. rewrite B. ring.
Qed.

Lemma cross_eq_lt_trans (n1 d1 n2 d2 n3 d3 : Z) :
  0 < d1 -> 0 < d2 ->
  n1 * d2 = n2 * d1 -> n2 * d3 < n3 * d2 -> n1 * d3 < n3 * d1.
Proof.
  intros H1 H2 A B. apply (Z.mul_lt_mono_pos_r d2); [assumption|].
  replace (n1 * d3 * d2) with (n1 * d2 * d3) by ring. rewrite A. nia.
Qed.

Lemma cross_lt_eq_trans (n1 d1 n2 d2 n3 d3 : Z) :
  0 < d2 -> 0 < d3 ->
  n1 * d2 < n2 * d1 -> n2 * d3 = n3 * d2 -> n1 * d3 < n3 * d1.
Proof.
  intros H2 H3 A B. apply (Z.mul_lt_mono_pos_r d2); [assumption|].
  replace (n3 * d1 * d2) with (n3 * d2 * d1) by ring. rewrite <- B. nia.
Qed.

Lemma Less_xy_2_lexicographic (p q : FracPoint2) :
  Less_xy_2 p q = Some true <->
  Frac_lt (x p) (x q) = Some true \/
  (Frac_eq (x p) (x q) = Some true /\ Frac_lt (y p) (y q) = Some true).
Proof.
  unfold Less_xy_2. split.
  - intro H. peel H. destruct v; [left; exact E|]. peel H.
    destruct v; [right; split; [exact E0 | exact H] | discriminate].
  - intros [Hx|[Ex Hy]].
    + rewrite Hx. reflexivity.
    + assert (Hd : exists c, Frac_lt (x p) (x q) = Some c).
      { unfold Frac_eq in Ex. unfold Frac_lt. peel Ex. rewrite E, E0.
        simpl. eexists. reflexivity. }
      destruct Hd as [c Hc]. rewrite Hc. simpl.
      destruct c; [reflexivity|]. rewrite Ex. simpl. exact Hy.
Qed.

Lemma cross_lt_trans_sign (n1 d1 n2 d2 n3 d3 : Z) :
  same_sign d1 d2 d3 ->
  n1 * d2 < n2 * d1 -> n2 * d3 < n3 * d2 -> n1 * d3 < n3 * d1.
Proof.
  intros [(H1 & H2 & H3)|(H1 & H2 & H3)] A B.
  - exact (cross_lt_trans _ _ _ _ _ _ H1 H2 H3 A B).
  - pose proof (cross_lt_trans (- n1) (- d1) (- n2) (- d2) (- n3) (- d3)) as L.
    rewrite !Z.mul_opp_opp in L. apply L; lia.
Qed.

Lemma cross_eq_trans_sign (n1 d1 n2 d2 n3 d3 : Z) :
  same_sign d1 d2 d3 ->
  n1 * d2 = n2 * d1 -> n2 * d3 = n3 * d2 -> n1 * d3 = n3 * d1.
Proof.
  intros [(H1 & H2 & H3)|(H1 & H2 & H3)] A B.
  - exact (cross_eq_trans _ _ _ _ _ _ H2 A B).
  - pose proof (cross_eq_trans (- n1) (- d1) (- n2) (- d2) (- n3) (- d3)) as L.
    rewrite !Z.mul_opp_opp in L. apply L; lia.
Qed.

Lemma cross_eq_lt_trans_sign (n1 d1 n2 d2 n3 d3 : Z) :
  same_sign d1 d2 d3 ->
  n1 * d2 = n2 * d1 -> n2 * d3 < n3 * d2 -> n1 * d3 < n3 * d1.
Proof.
  intros [(H1 & H2 & H3)|(H1 & H2 & H3)] A B.
  - exact (cross_eq_lt_trans _ _ _ _ _ _ H1 H2 A B).
  - pose proof (cross_eq_lt_trans (- n1) (- d1) (- n2) (- d2) (- n3) (- d3))
      as L.
    rewrite !Z.mul_opp_opp in L. apply L; lia.
Qed.

Lemma cross_lt_eq_trans_sign (n1 d1 n2 d2 n3 d3 : Z) :
  same_sign d1 d2 d3 ->
  n1 * d2 < n2 * d1 -> n2 * d3 = n3 * d2 -> n1 * d3 < n3 * d1.
Proof.
  intros [(H1 & H2 & H3)|(H1 & H2 & H3)] A B.
  - exact (cross_lt_eq_trans _ _ _ _ _ _ H2 H3 A B).
  - pose proof (cross_lt_eq_trans (- n1) (- d1) (- n2) (- d2) (- n3) (- d3))
      as L.
    rewrite !Z.mul_opp_opp in L. apply L; lia.
Qed.

(** C7, as amended.  [Less_xy_2(p, q)] returns [true] exactly when
    [p.x() < q.x()], or [p.x() == q.x()] and [p.y() < q.y()].  On all
    points, wherever the comparisons are defined, the relation is
    irreflexive and exactly one of [Less_xy_2(p, q)], [Less_xy_2(q, p)] and
    [Equal_2(p, q)] returns [true].  It is transitive on the triples whose
    three [x] denominators have one strict sign and whose three [y]
    denominators have one strict sign, as when every denominator is
    strictly positive. *)
Theorem Less_xy_2_strict_total_order (p q r : FracPoint2) :
  (Less_xy_2 p q = Some true <->
   Frac_lt (x p) (x q) = Some true \/
   (Frac_eq (x p) (x q) = Some true /\ Frac_lt (y p) (y q) = Some true)) /\
  (forall t, Less_xy_2 p p = Some t -> t = false) /\
  (forall t1 t2 t3,
     Less_xy_2 p q = Some t1 -> Less_xy_2 q p = Some t2 ->
     Equal_2 p q = Some t3 ->
     (t1 = true /\ t2 = false /\ t3 = false) \/
     (t1 = false /\ t2 = true /\ t3 = false) \/
     (t1 = false /\ t2 = false /\ t3 = true)) /\
  (same_sign (den (x p)) (den (x q)) (den (x r)) ->
   same_sign (den (y p)) (den (y q)) (den (y r)) ->
   Less_xy_2 p q = Some true -> Less_xy_2 q r = Some true ->
   forall t, Less_xy_2 p r = Some t -> t = true).
Proof.
  split; [apply Less_xy_2_lexicographic|]. split; [|split].
  - intros t H. apply Less_xy_2_inv in H. subst t.
    rewrite !Z.ltb_irrefl. rewrite andb_false_r. reflexivity.
  - intros t1 t2 t3 H1 H2 H3.
    apply Less_xy_2_inv in H1, H2. apply Equal_2_inv in H3. subst t1 t2 t3.
    lia.
  - intros Sx Sy Hpq Hqr t Hpr.
    apply Less_xy_2_inv in Hpq, Hqr, Hpr. subst t.
    symmetry in Hpq, Hqr.
    rewrite orb_true_iff, andb_true_iff, !Z.ltb_lt, Z.eqb_eq in *.
    destruct Hpq as [Hpq|[Epq Hpq]], Hqr as [Hqr|[Eqr Hqr]].
    + left. exact (cross_lt_trans_sign _ _ _ _ _ _ Sx Hpq Hqr).
    + left. exact (cross_lt_eq_trans_sign _ _ _ _ _ _ Sx Hpq Eqr).
    + left. exact (cross_eq_lt_trans_sign _ _ _ _ _ _ Sx Epq Hqr).
    + right. split.
      * exact (cross_eq_trans_sign _ _ _ _ _ _ Sx Epq Eqr).
      * exact (cross_lt_trans_sign _ _ _ _ _ _ Sy Hpq Hqr).
Qed.

Lemma Less_xy_2_strict_total_order_witness :
  let p := mkFracPoint2 (mkFrac 0 (-1)) (mkFrac 0 1) in
  let q := mkFracPoint2 (mkFrac (-1) (-2)) (mkFrac 1 4) in
  let r := mkFracPoint2 (mkFrac (-1) (-1)) (mkFrac 0 1) in
  same_sign (den (x p)) (den (x q)) (den (x r)) /\
  same_sign (den (y p)) (den (y q)) (den (y r)) /\
  Less_xy_2 p q = Some true /\ Less_xy_2 q r = Some true /\
  exists t, Less_xy_2 p r = Some t /\ t = true.
Proof.
  intros p q r.
  assert (Sx : same_sign (den (x p)) (den (x q)) (den (x r)))
    by (right; simpl; lia).
  assert (Sy : same_sign (den (y p)) (den (y q)) (den (y r)))
    by (left; simpl; lia).
  split; [exact Sx|]. split; [exact Sy|].
  split; [reflexivity|]. split; [reflexivity|].
  exists true. split; [reflexivity|].
  apply (proj2 (proj2 (proj2 (Less_xy_2_strict_total_order p q r)))
           Sx Sy eq_refl eq_refl).
  reflexivity.
Defined.

(** C7 fails as stated, for all points.  With [p.x = 1/1], [q.x = 2/1] and
    [r.x = -3/-2] (the fraction [operator/] returns for [-3/2] divided by
    [-1/1]) [Less_xy_2] puts [p] before [q] and [q] before [r], yet not [p]
    before [r], and it puts [q] before [r] although [r.x] is the smaller
    rational number.  With a coordinate [0/0], which is no fraction,
    transitivity fails as well. *)
Lemma Less_xy_2_not_transitive :
  (let p := mkFracPoint2 (mkFrac 1 1) (mkFrac 0 1) in
   let q := mkFracPoint2 (mkFrac 2 1) (mkFrac 0 1) in
   let r := mkFracPoint2 (mkFrac (-3) (-2)) (mkFrac 0 1) in
   Frac_div (mkFrac (-3) 2) (mkFrac (-1) 1) = Some (x r) /\
   Less_xy_2 p q = Some true /\
   Less_xy_2 q r = Some true /\
   Less_xy_2 p r = Some false /\
   (value (x r) < value (x q))%Q) /\
  (let p := mkFracPoint2 (mkFrac 1 1) (mkFrac 0 1) in
   let q := mkFracPoint2 (mkFrac 0 0) (mkFrac 1 1) in
   let r := mkFracPoint2 (mkFrac 0 1) (mkFrac 2 1) in
   Less_xy_2 p q = Some true /\
   Less_xy_2 q r = Some true /\
   Less_xy_2 p r = Some false) /\
  ~ (forall p q r,
       Less_xy_2 p q = Some true -> Less_xy_2 q r = Some true ->
       Less_xy_2 p r = Some true).
Proof.
  repeat split.
  intro H.
  specialize (H (mkFracPoint2 (mkFrac 1 1) (mkFrac 0 1))
                (mkFracPoint2 (mkFrac 2 1) (mkFrac 0 1))
                (mkFracPoint2 (mkFrac (-3) (-2)) (mkFrac 0 1))
                eq_refl eq_refl).
  discriminate H.
Qed.

(** ** The operators are defined on small operands *)

Lemma mul_small (u v : Z) :
  Z.abs u < 2 ^ 31 -> Z.abs v < 2 ^ 31 -> Z.abs (u * v) < 2 ^ 62.
Proof.
  intros Hu Hv. rewrite Z.abs_mul.
  change (2 ^ 62) with (2 ^ 31 * 2 ^ 31).
  apply Z.mul_lt_mono_nonneg; auto using Z.abs_nonneg.
Qed.

Ltac ll_range :=
  rewrite ?in_ll_iff;
  change LL.ll_min with (-9223372036854775808);
  change LL.ll_max with 9223372036854775807;
  change (2 ^ 62) with 4611686018427387904 in *;
  lia.

Ltac small_products a b Ha Hb :=
  pose proof (mul_small (num a) (den b) (proj1 Ha) (proj2 Hb));
  pose proof (mul_small (den a) (num b) (proj2 Ha) (proj1 Hb));
  pose proof (mul_small (num a) (num b) (proj1 Ha) (proj1 Hb));
  pose proof (mul_small (den a) (den b) (proj2 Ha) (proj2 Hb)).

Section Small.

Variables a b : Frac.
Hypothesis Ha : small a.
Hypothesis Hb : small b.

Lemma Frac_add_small :
  Frac_add a b
  = Some (lowest (num a * den b + den a * num b) (den a * den b)).
Proof.
  small_products a b Ha Hb. unfold Frac_add, LL.mul, LL.add.
  rewrite (ll_in_range (num a * den b)) by ll_range.
  rewrite (ll_in_range (den a * num b)) by ll_range. simpl.
  rewrite (ll_in_range (num a * den b + den a * num b)) by ll_range.
  rewrite (ll_in_range (den a * den b)) by ll_range. simpl.
  apply reduce_defined; ll_range.
Qed.

Lemma Frac_sub_small :
  Frac_sub a b
  = Some (lowest (num a * den b - den a * num b) (den a * den b)).
Proof.
  small_products a b Ha Hb. unfold Frac_sub, LL.mul, LL.sub.
  rewrite (ll_in_range (num a * den b)) by ll_range.
  rewrite (ll_in_range (den a * num b)) by ll_range. simpl.
  rewrite (ll_in_range (num a * den b - den a * num b)) by ll_range.
  rewrite (ll_in_range (den a * den b)) by ll_range. simpl.
  apply reduce_defined; ll_range.
Qed.

Lemma Frac_mul_small :
  Frac_mul a b = Some (lowest (num a * num b) (den a * den b)).
Proof.
  small_products a b Ha Hb. unfold Frac_mul, LL.mul.
  rewrite (ll_in_range (num a * num b)) by ll_range.
  rewrite (ll_in_range (den a * den b)) by ll_range. simpl.
  apply reduce_defined; ll_range.
Qed.

Lemma Frac_div_small :
  Frac_div a b = Some (lowest (num a * den b) (den a * num b)).
Proof.
  small_products a b Ha Hb. unfold Frac_div, LL.mul.
  rewrite (ll_in_range (num a * den b)) by ll_range.
  rewrite (ll_in_range (den a * num b)) by ll_range. simpl.
  apply reduce_defined; ll_range.
Qed.

Lemma Frac_compare_small :
  LL.in_ll (num a * den b) = true /\ LL.in_ll (num b * den a) = true.
Proof.
  small_products a b Ha Hb.
  rewrite (Z.mul_comm (num b) (den a)). split; ll_range.
Qed.

End Small.

Lemma inject_Z_nonzero (d : Z) : d <> 0 -> ~ (inject_Z d == 0)%Q.
Proof.
  intros Hd H. apply Hd. apply inject_Z_injective. exact H.
Qed.

Lemma lowest_den_nonzero (n d : Z) : d <> 0 -> den (lowest n d) <> 0.
Proof.
  intros Hd H. pose proof (lowest_den n d) as E. rewrite H in E. lia.
Qed.

Lemma value_lowest (n d : Z) :
  d <> 0 -> (value (lowest n d) == inject_Z n / inject_Z d)%Q.
Proof.
  intro Hd. pose proof (lowest_den_nonzero n d Hd) as Hd'.
  pose proof (lowest_num n d) as En. pose proof (lowest_den n d) as Ed.
  assert (Hg : Z.gcd n d <> 0) by (intro Hz; rewrite Hz in Ed; lia).
  unfold value.
  transitivity (inject_Z (num (lowest n d) * Z.gcd n d)
                / inject_Z (den (lowest n d) * Z.gcd n d))%Q.
  - rewrite !inject_Z_mult. field.
    split; apply inject_Z_nonzero; assumption.
  - rewrite En, Ed. reflexivity.
Qed.

Lemma value_add (a b r : Frac) :
  den a <> 0 -> den b <> 0 -> Frac_add a b = Some r ->
  den r <> 0 /\ (value r == value a + value b)%Q.
Proof.
  intros Ha Hb H. apply Frac_add_inv in H. subst r.
  assert (Hd : den a * den b <> 0) by lia. split.
  - apply lowest_den_nonzero. exact Hd.
  - rewrite (value_lowest _ _ Hd). unfold value.
    rewrite inject_Z_plus, !inject_Z_mult. field.
    split; apply inject_Z_nonzero; assumption.
Qed.

Lemma value_sub (a b r : Frac) :
  den a <> 0 -> den b <> 0 -> Frac_sub a b = Some r ->
  den r <> 0 /\ (value r == value a - value b)%Q.
Proof.
  intros Ha Hb H. apply Frac_sub_inv in H. subst r.
  assert (Hd : den a * den b <> 0) by lia. split.
  - apply lowest_den_nonzero. exact Hd.
  - rewrite (value_lowest _ _ Hd). unfold value, Z.sub.
    rewrite inject_Z_plus, inject_Z_opp, !inject_Z_mult. field.
    split; apply inject_Z_nonzero; assumption.
Qed.

Lemma value_mul (a b r : Frac) :
  den a <> 0 -> den b <> 0 -> Frac_mul a b = Some r ->
  den r <> 0 /\ (value r == value a * value b)%Q.
Proof.
  intros Ha Hb H. apply Frac_mul_inv in H. subst r.
  assert (Hd : den a * den b <> 0) by lia. split.
  - apply lowest_den_nonzero. exact Hd.
  - rewrite (value_lowest _ _ Hd). unfold value.
    rewrite !inject_Z_mult. field.
    split; apply inject_Z_nonzero; assumption.
Qed.

Lemma value_div (a b r : Frac) :
  den a <> 0 -> den b <> 0 -> num b <> 0 -> Frac_div a b = Some r ->
  den r <> 0 /\ (value r == value a / value b)%Q.
Proof.
  intros Ha Hb Hn H. apply Frac_div_inv in H. subst r.
  assert (Hd : den a * num b <> 0) by lia. split.
  - apply lowest_den_nonzero. exact Hd.
  - rewrite (value_lowest _ _ Hd). unfold value.
    rewrite !inject_Z_mult. field.
    repeat split; apply inject_Z_nonzero; assumption.
Qed.

Lemma lowest_den_sgn (n d : Z) : Z.sgn (den (lowest n d)) = Z.sgn d.
Proof.
  pose proof (lowest_den n d) as E. pose proof (Z.gcd_nonneg n d) as Hg.
  destruct (Z.eq_dec (Z.gcd n d) 0) as [Hz|Hz].
  - unfold lowest. apply Z.eqb_eq in Hz. rewrite Hz. reflexivity.
  - rewrite <- E at 2. rewrite Z.sgn_mul, (Z.sgn_pos (Z.gcd n d)) by lia.
    lia.
Qed.

Lemma lowest_num_sgn (n d : Z) : Z.sgn (num (lowest n d)) = Z.sgn n.
Proof.
  pose proof (lowest_num n d) as E. pose proof (Z.gcd_nonneg n d) as Hg.
  destruct (Z.eq_dec (Z.gcd n d) 0) as [Hz|Hz].
  - unfold lowest. apply Z.eqb_eq in Hz. rewrite Hz. reflexivity.
  - rewrite <- E at 2. rewrite Z.sgn_mul, (Z.sgn_pos (Z.gcd n d)) by lia.
    lia.
Qed.

Lemma lowest_den_pos (n d : Z) : 0 < d -> 0 < den (lowest n d).
Proof.
  intro H. apply Z.sgn_pos_iff. rewrite lowest_den_sgn.
  apply Z.sgn_pos_iff. exact H.
Qed.

Lemma coprime_cross_eq (n1 d1 n2 d2 : Z) :
  Z.gcd n1 d1 = 1 -> Z.gcd n2 d2 = 1 -> 0 < d1 -> 0 < d2 ->
  n1 * d2 = n2 * d1 -> n1 = n2 /\ d1 = d2.
Proof.
  intros G1 G2 H1 H2 E.
  assert (D12 : (d1 | d2)).
  { apply (Z.gauss d1 n1 d2).
    - exists n2. rewrite E. reflexivity.
    - rewrite Z.gcd_comm. exact G1. }
  assert (D21 : (d2 | d1)).
  { apply (Z.gauss d2 n2 d1).
    - exists n1. rewrite <- E. reflexivity.
    - rewrite Z.gcd_comm. exact G2. }
  assert (Ed : d1 = d2)
    by (apply Z.divide_antisym_nonneg; [lia | lia | assumption | assumption]).
  split; [|exact Ed]. subst d2.
  apply (Z.mul_cancel_r _ _ d1); [lia | exact E].
Qed.

Lemma arith_result_lowest (a b r : Frac) :
  arith_result a b r -> exists n d, r = lowest n d.
Proof.
  intros [H|[H|[H|H]]];
    [ apply Frac_add_inv in H | apply Frac_sub_inv in H
    | apply Frac_mul_inv in H | apply Frac_div_inv in H ];
    eexists; eexists; exact H.
Qed.

Lemma arith_result_coprime (a b r : Frac) :
  arith_result a b r -> den r <> 0 -> Z.gcd (num r) (den r) = 1.
Proof.
  intros H Hd. destruct (arith_result_lowest a b r H) as (n & d & ->).
  pose proof (lowest_coprime n d Hd) as G.
  rewrite Z.gcd_abs_l, Z.gcd_abs_r in G. exact G.
Qed.

Lemma value_scaled (a b : Frac) :
  den a <> 0 -> den b <> 0 ->
  (inject_Z (num a * den b) == value a * inject_Z (den a * den b))%Q.
Proof.
  intros Ha Hb. unfold value. rewrite !inject_Z_mult. field.
  apply inject_Z_nonzero. exact Ha.
Qed.

Lemma value_eq_cross (a b : Frac) :
  den a <> 0 -> den b <> 0 ->
  ((value a == value b)%Q <-> num a * den b = num b * den a).
Proof.
  intros Ha Hb. rewrite <- inject_Z_injective.
  rewrite (value_scaled a b Ha Hb), (value_scaled b a Hb Ha).
  rewrite (Z.mul_comm (den b) (den a)).
  symmetry. apply Qmult_inj_r. apply inject_Z_nonzero. lia.
Qed.

Lemma value_lt_cross (a b : Frac) :
  0 < den a * den b ->
  ((value a < value b)%Q <-> num a * den b < num b * den a).
Proof.
  intro H. assert (Ha : den a <> 0) by lia. assert (Hb : den b <> 0) by lia.
  rewrite Zlt_Qlt.
  rewrite (value_scaled a b Ha Hb), (value_scaled b a Hb Ha).
  rewrite (Z.mul_comm (den b) (den a)).
  symmetry. apply Qmult_lt_r.
  change 0%Q with (inject_Z 0). rewrite <- Zlt_Qlt. exact H.
Qed.

Lemma value_lt_cross_neg (a b : Frac) :
  den a * den b < 0 ->
  ((value b < value a)%Q <-> num a * den b < num b * den a).
Proof.
  intro H. assert (Ha : den a <> 0) by lia. assert (Hb : den b <> 0) by lia.
  rewrite Zlt_Qlt.
  rewrite (value_scaled a b Ha Hb), (value_scaled b a Hb Ha).
  rewrite (Z.mul_comm (den b) (den a)).
  assert (HK : (0 < - inject_Z (den a * den b))%Q).
  { rewrite <- inject_Z_opp. change 0%Q with (inject_Z 0).
    rewrite <- Zlt_Qlt. lia. }
  rewrite <- (Qmult_lt_r (value b) (value a) _ HK).
  split; intro L; apply Qopp_lt_compat in L.
  - setoid_replace (value a * inject_Z (den a * den b))%Q
      with (- (value a * - inject_Z (den a * den b)))%Q by ring.
    setoid_replace (value b * inject_Z (den a * den b))%Q
      with (- (value b * - inject_Z (den a * den b)))%Q by ring.
    exact L.
  - setoid_replace (value a * - inject_Z (den a * den b))%Q
      with (- (value a * inject_Z (den a * den b)))%Q by ring.
    setoid_replace (value b * - inject_Z (den a * den b))%Q
      with (- (value b * inject_Z (den a * den b)))%Q by ring.
    exact L.
Qed.

(** ** Exact arithmetic *)

(** X1.  For operands with non-zero denominators, a sum that is computed
    has a non-zero denominator and stands for the sum of the two rational
    numbers. *)
Theorem Frac_add_exact (a b r : Frac) :
  den a <> 0 -> den b <> 0 -> Frac_add a b = Some r ->
  den r <> 0 /\ (value r == value a + value b)%Q.
Proof. apply value_add. Qed.

Lemma Frac_add_exact_witness :
  Frac_add (mkFrac 1 6) (mkFrac 1 (-3)) = Some (mkFrac 1 (-6)) /\
  (value (mkFrac 1 (-6)) == value (mkFrac 1 6) + value (mkFrac 1 (-3)))%Q.
Proof.
  split; [reflexivity|].
  apply (Frac_add_exact (mkFrac 1 6) (mkFrac 1 (-3)) (mkFrac 1 (-6)));
    [simpl; lia | simpl; lia | reflexivity].
Defined.

(** X2.  For operands with non-zero denominators, a difference that is
    computed has a non-zero denominator and stands for the difference of the
    two rational numbers. *)
Theorem Frac_sub_exact (a b r : Frac) :
  den a <> 0 -> den b <> 0 -> Frac_sub a b = Some r ->
  den r <> 0 /\ (value r == value a - value b)%Q.
Proof. apply value_sub. Qed.

Lemma Frac_sub_exact_witness :
  Frac_sub (mkFrac 1 2) (mkFrac 1 3) = Some (mkFrac 1 6) /\
  (value (mkFrac 1 6) == value (mkFrac 1 2) - value (mkFrac 1 3))%Q.
Proof.
  split; [reflexivity|].
  apply (Frac_sub_exact (mkFrac 1 2) (mkFrac 1 3) (mkFrac 1 6));
    [simpl; lia | simpl; lia | reflexivity].
Defined.

(** X3.  For operands with non-zero denominators, a product that is
    computed has a non-zero denominator and stands for the product of the
    two rational numbers. *)
Theorem Frac_mul_exact (a b r : Frac) :
  den a <> 0 -> den b <> 0 -> Frac_mul a b = Some r ->
  den r <> 0 /\ (value r == value a * value b)%Q.
Proof. apply value_mul. Qed.

Lemma Frac_mul_exact_witness :
  Frac_mul (mkFrac 2 3) (mkFrac 3 4) = Some (mkFrac 1 2) /\
  (value (mkFrac 1 2) == value (mkFrac 2 3) * value (mkFrac 3 4))%Q.
Proof.
  split; [reflexivity|].
  apply (Frac_mul_exact (mkFrac 2 3) (mkFrac 3 4) (mkFrac 1 2));
    [simpl; lia | simpl; lia | reflexivity].
Defined.

(** X4.  For operands with non-zero denominators and a divisor with a
    non-zero numerator, a quotient that is computed has a non-zero
    denominator and stands for the quotient of the two rational numbers. *)
Theorem Frac_div_exact (a b r : Frac) :
  den a <> 0 -> den b <> 0 -> num b <> 0 -> Frac_div a b = Some r ->
  den r <> 0 /\ (value r == value a / value b)%Q.
Proof. apply value_div. Qed.

Lemma Frac_div_exact_witness :
  Frac_div (mkFrac 1 2) (mkFrac (-3) 4) = Some (mkFrac 2 (-3)) /\
  (value (mkFrac 2 (-3)) == value (mkFrac 1 2) / value (mkFrac (-3) 4))%Q.
Proof.
  split; [reflexivity|].
  apply (Frac_div_exact (mkFrac 1 2) (mkFrac (-3) 4) (mkFrac 2 (-3)));
    [simpl; lia | simpl; lia | simpl; lia | reflexivity].
Defined.

(** ** The sign of the denominator *)

(** X5.  [+], [-] and [*] keep denominators strictly positive: when both
    operands have a strictly positive denominator, so has every result. *)
Theorem positive_denominator_preserved (a b r : Frac) :
  0 < den a -> 0 < den b ->
  Frac_add a b = Some r \/ Frac_sub a b = Some r \/ Frac_mul a b = Some r ->
  0 < den r.
Proof.
  intros Ha Hb [H|[H|H]];
    [ apply Frac_add_inv in H | apply Frac_sub_inv in H
    | apply Frac_mul_inv in H ];
    subst r; apply lowest_den_pos; lia.
Qed.

Lemma positive_denominator_preserved_witness :
  Frac_sub (mkFrac 1 6) (mkFrac 1 2) = Some (mkFrac (-1) 3) /\
  0 < den (mkFrac (-1) 3).
Proof.
  split; [reflexivity|].
  apply (positive_denominator_preserved (mkFrac 1 6) (mkFrac 1 2));
    [simpl; lia | simpl; lia | right; left; reflexivity].
Defined.

(** X6.  [/] does not keep denominators positive: the denominator of a
    quotient has the sign of [a.den() * b.num()], so dividing fractions with
    positive denominators by one with a negative numerator returns a
    fraction with a negative denominator. *)
Theorem Frac_div_denominator_sign (a b r : Frac) :
  Frac_div a b = Some r ->
  Z.sgn (den r) = Z.sgn (den a * num b) /\
  (0 < den a -> num b < 0 -> den r < 0).
Proof.
  intro H. apply Frac_div_inv in H. subst r.
  pose proof (lowest_den_sgn (num a * den b) (den a * num b)) as E.
  split; [exact E|]. intros Ha Hb.
  apply Z.sgn_neg_iff. rewrite E. apply Z.sgn_neg_iff. nia.
Qed.

Lemma Frac_div_denominator_sign_witness :
  Frac_div (mkFrac 1 2) (mkFrac (-3) 4) = Some (mkFrac 2 (-3)) /\
  Z.sgn (den (mkFrac 2 (-3))) = Z.sgn (2 * -3).
Proof.
  split; [reflexivity|].
  apply (Frac_div_denominator_sign (mkFrac 1 2) (mkFrac (-3) 4)).
  reflexivity.
Defined.

(** X7.  Results are canonical: two results of arithmetic operators with
    strictly positive denominators that [==] finds equal are the same
    numerator and denominator. *)
Theorem arith_result_canonical (a b c d r s : Frac) :
  arith_result a b r -> arith_result c d s ->
  0 < den r -> 0 < den s ->
  Frac_eq r s = Some true -> r = s.
Proof.
  intros Hr Hs Pr Ps E.
  assert (Gr : Z.gcd (num r) (den r) = 1)
    by (apply (arith_result_coprime a b); [assumption | lia]).
  assert (Gs : Z.gcd (num s) (den s) = 1)
    by (apply (arith_result_coprime c d); [assumption | lia]).
  apply Frac_eq_inv in E. symmetry in E. apply Z.eqb_eq in E.
  destruct (coprime_cross_eq _ _ _ _ Gr Gs Pr Ps E) as [En Ed].
  destruct r, s; simpl in *; congruence.
Qed.

Lemma arith_result_canonical_witness :
  arith_result (mkFrac 1 6) (mkFrac 1 3) (mkFrac 1 2) /\
  arith_result (mkFrac 2 3) (mkFrac 3 4) (mkFrac 1 2) /\
  Frac_eq (mkFrac 1 2) (mkFrac 1 2) = Some true /\
  mkFrac 1 2 = mkFrac 1 2.
Proof.
  assert (Hr : arith_result (mkFrac 1 6) (mkFrac 1 3) (mkFrac 1 2))
    by (left; reflexivity).
  assert (Hs : arith_result (mkFrac 2 3) (mkFrac 3 4) (mkFrac 1 2))
    by (right; right; left; reflexivity).
  repeat (split; [assumption || reflexivity|]).
  apply (arith_result_canonical _ _ _ _ _ _ Hr Hs);
    [simpl; lia | simpl; lia | reflexivity].
Defined.

(** ** Comparisons and the sign of the denominator *)

(** X8.  [==] is right for denominators of either sign: for non-zero
    denominators, whenever it returns, it returns [true] exactly when the
    two fractions stand for the same rational number. *)
Theorem Frac_eq_exact (a b : Frac) (t : bool) :
  den a <> 0 -> den b <> 0 -> Frac_eq a b = Some t ->
  (t = true <-> (value a == value b)%Q).
Proof.
  intros Ha Hb H. apply Frac_eq_inv in H. subst t.
  rewrite (value_eq_cross a b Ha Hb). apply Z.eqb_eq.
Qed.

Lemma Frac_eq_exact_witness :
  Frac_eq (mkFrac 1 (-2)) (mkFrac (-2) 4) = Some true /\
  (value (mkFrac 1 (-2)) == value (mkFrac (-2) 4))%Q.
Proof.
  split; [reflexivity|].
  apply (Frac_eq_exact (mkFrac 1 (-2)) (mkFrac (-2) 4) true);
    [simpl; lia | simpl; lia | reflexivity | reflexivity].
Defined.

(** X9.  [<] follows the sign of the product of the two denominators: when
    the product is positive (both denominators positive or both negative)
    it returns [true] exactly when [a] is the smaller rational number; when
    the product is negative it returns [true] exactly when [a] is the
    greater one. *)
Theorem Frac_lt_denominator_signs (a b : Frac) (t : bool) :
  Frac_lt a b = Some t ->
  (0 < den a * den b -> (t = true <-> (value a < value b)%Q)) /\
  (den a * den b < 0 -> (t = true <-> (value b < value a)%Q)).
Proof.
  intro H. apply Frac_lt_inv in H. subst t. split; intro Hs.
  - rewrite (value_lt_cross a b Hs). apply Z.ltb_lt.
  - rewrite (value_lt_cross_neg a b Hs). apply Z.ltb_lt.
Qed.

Lemma Frac_lt_denominator_signs_witness :
  Frac_lt (mkFrac 0 1) (mkFrac 1 (-1)) = Some true /\
  (value (mkFrac 1 (-1)) < value (mkFrac 0 1))%Q.
Proof.
  split; [reflexivity|].
  apply (proj2 (Frac_lt_denominator_signs (mkFrac 0 1) (mkFrac 1 (-1)) true
                  eq_refl)); [simpl; lia | reflexivity].
Defined.

Lemma cmp_swap (f g : Z -> Z -> bool) (a b : Frac) :
  (forall u v, f u v = g v u) ->
  (l <- LL.mul (num a) (den b) ;; r <- LL.mul (num b) (den a) ;; Some (f l r))
  = (l <- LL.mul (num b) (den a) ;; r <- LL.mul (num a) (den b) ;;
     Some (g l r)).
Proof.
  intro E.
  destruct (LL.mul (num a) (den b)) as [l|], (LL.mul (num b) (den a)) as [r|];
    simpl; rewrite ?E; reflexivity.
Qed.

Lemma cmp_map (f g : Z -> Z -> bool) (a b : Frac) :
  (forall u v, f u v = negb (g u v)) ->
  (l <- LL.mul (num a) (den b) ;; r <- LL.mul (num b) (den a) ;; Some (f l r))
  = option_map negb
      (l <- LL.mul (num a) (den b) ;; r <- LL.mul (num b) (den a) ;;
       Some (g l r)).
Proof.
  intro E.
  destruct (LL.mul (num a) (den b)) as [l|], (LL.mul (num b) (den a)) as [r|];
    simpl; rewrite ?E; reflexivity.
Qed.

Lemma Frac_eq_sym (a b : Frac) : Frac_eq a b = Frac_eq b a.
Proof. apply (cmp_swap Z.eqb Z.eqb). apply Z.eqb_sym. Qed.

(** X10.  The comparison operators agree with each other on all fractions,
    whatever the signs: [a > b] is [b < a], [a >= b] is [b <= a], [a <= b]
    is the negation of [a > b], [a >= b] is the negation of [a < b], and
    [a == b] is [b == a]; each pair is also undefined together. *)
Theorem Frac_comparisons_consistent (a b : Frac) :
  Frac_gt a b = Frac_lt b a /\
  Frac_ge a b = Frac_le b a /\
  Frac_le a b = option_map negb (Frac_gt a b) /\
  Frac_ge a b = option_map negb (Frac_lt a b) /\
  Frac_eq a b = Frac_eq b a.
Proof.
  repeat split.
  - apply (cmp_swap Z.gtb Z.ltb). intros u v. apply Z.gtb_ltb.
  - apply (cmp_swap Z.geb Z.leb). intros u v. apply Z.geb_leb.
  - apply (cmp_map Z.leb Z.gtb). intros u v.
    rewrite Z.gtb_ltb. apply Z.leb_antisym.
  - apply (cmp_map Z.geb Z.ltb). intros u v.
    rewrite Z.geb_leb. apply Z.leb_antisym.
  - apply Frac_eq_sym.
Qed.

(** ** [Equal_2] *)

Lemma cross_eq_trans_nz (n1 d1 n2 d2 n3 d3 : Z) :
  d2 <> 0 ->
  n1 * d2 = n2 * d1 -> n2 * d3 = n3 * d2 -> n1 * d3 = n3 * d1.
Proof.
  intros H2 A B. apply (Z.mul_cancel_r _ _ d2); [assumption|].
  transitivity (n2 * d1 * d3).
  - rewrite <- A. ring.
  - replace (n2 * d1 * d3) with (n2 * d3 * d1) by ring. rewrite B. ring.
Qed.

Lemma Equal_2_sym (p q : FracPoint2) : Equal_2 p q = Equal_2 q p.
Proof.
  unfold Equal_2. rewrite (Frac_eq_sym (x q) (x p)), (Frac_eq_sym (y q) (y p)).
  reflexivity.
Qed.

(** X11.  [Equal_2] is an equivalence on points: it never returns [false]
    for a point and itself, it returns the same for [(p, q)] and [(q, p)],
    and it is transitive through a middle point whose coordinates have
    non-zero denominators. *)
Theorem Equal_2_equivalence (p q r : FracPoint2) :
  (forall t, Equal_2 p p = Some t -> t = true) /\
  Equal_2 p q = Equal_2 q p /\
  (nonzero_den q ->
   Equal_2 p q = Some true -> Equal_2 q r = Some true ->
   forall t, Equal_2 p r = Some t -> t = true).
Proof.
  repeat split.
  - intros t H. apply Equal_2_inv in H. subst t.
    rewrite !Z.eqb_refl. reflexivity.
  - apply Equal_2_sym.
  - intros [Hx Hy] Hpq Hqr t Hpr.
    apply Equal_2_inv in Hpq, Hqr, Hpr. subst t.
    symmetry in Hpq, Hqr. apply andb_true_iff in Hpq, Hqr.
    destruct Hpq as [Xpq Ypq], Hqr as [Xqr Yqr].
    apply Z.eqb_eq in Xpq, Ypq, Xqr, Yqr.
    apply andb_true_iff. split; apply Z.eqb_eq.
    + exact (cross_eq_trans_nz _ _ _ _ _ _ Hx Xpq Xqr).
    + exact (cross_eq_trans_nz _ _ _ _ _ _ Hy Ypq Yqr).
Qed.

Lemma Equal_2_equivalence_witness :
  let p := mkFracPoint2 (mkFrac 1 2) (mkFrac 3 1) in
  let q := mkFracPoint2 (mkFrac 2 4) (mkFrac (-3) (-1)) in
  let r := mkFracPoint2 (mkFrac (-4) (-8)) (mkFrac 6 2) in
  nonzero_den q /\ exists t, Equal_2 p r = Some t /\ t = true.
Proof.
  intros p q r.
  assert (Hq : nonzero_den q) by (split; simpl; lia).
  split; [exact Hq|]. exists true. split; [reflexivity|].
  apply (proj2 (proj2 (Equal_2_equivalence p q r)) Hq eq_refl eq_refl).
  reflexivity.
Defined.

Lemma FracPoint2_sub_value (p q r : FracPoint2) :
  nonzero_den p -> nonzero_den q -> FracPoint2_sub p q = Some r ->
  nonzero_den r /\
  (value (x r) == value (x p) - value (x q))%Q /\
  (value (y r) == value (y p) - value (y q))%Q.
Proof.
  intros [Hpx Hpy] [Hqx Hqy] H. unfold FracPoint2_sub in H. peel H.
  inversion H; subst r; simpl.
  destruct (value_sub _ _ _ Hpx Hqx E) as [Dx Vx].
  destruct (value_sub _ _ _ Hpy Hqy E0) as [Dy Vy].
  repeat split; assumption.
Qed.

Lemma cross_value (p q : FracPoint2) (t : Frac) :
  nonzero_den p -> nonzero_den q -> cross p q = Some t ->
  den t <> 0 /\
  (value t == value (x p) * value (y q) - value (x q) * value (y p))%Q.
Proof.
  intros [Hpx Hpy] [Hqx Hqy] H. unfold cross in H. peel H.
  destruct (value_mul _ _ _ Hpx Hqy E) as [Dl Vl].
  destruct (value_mul _ _ _ Hqx Hpy E0) as [Dr Vr].
  destruct (value_sub _ _ _ Dl Dr H) as [Dt Vt].
  split; [exact Dt|]. rewrite Vt, Vl, Vr. reflexivity.
Qed.

Lemma Left_turn_2_value (p0 p1 p2 : FracPoint2) (t : bool) :
  nonzero_den p0 -> nonzero_den p1 -> nonzero_den p2 ->
  Left_turn_2 p0 p1 p2 = Some t ->
  (t = true <-> (0 < det p0 p1 p2)%Q).
Proof.
  intros H0 H1 H2 H. unfold Left_turn_2 in H. peel H.
  destruct (FracPoint2_sub_value _ _ _ H1 H0 E) as (Du & Ux & Uy).
  destruct (FracPoint2_sub_value _ _ _ H2 H0 E0) as (Dv & Vx & Vy).
  destruct (cross_value _ _ _ Du Dv E1) as [Dt Vt].
  inversion H. rewrite positive_iff_value, Vt, Ux, Uy, Vx, Vy.
  unfold det. reflexivity.
Qed.

Lemma det_cycle (p0 p1 p2 : FracPoint2) :
  (det p0 p1 p2 == det p1 p2 p0)%Q.
Proof. unfold det. ring. Qed.

Lemma Frac_eq_value (a b : Frac) :
  den a <> 0 -> den b <> 0 -> Frac_eq a b = Some true ->
  (value a == value b)%Q.
Proof.
  intros Ha Hb H. apply Frac_eq_inv in H. symmetry in H.
  apply Z.eqb_eq in H. apply (value_eq_cross a b Ha Hb). exact H.
Qed.

Lemma Equal_2_value (p q : FracPoint2) :
  nonzero_den p -> nonzero_den q -> Equal_2 p q = Some true ->
  (value (x p) == value (x q))%Q /\ (value (y p) == value (y q))%Q.
Proof.
  intros [Hpx Hpy] [Hqx Hqy] H. unfold Equal_2 in H. peel H.
  destruct v; [|discriminate].
  split; apply Frac_eq_value; assumption.
Qed.

Lemma not_Qlt_0 (q : Q) : (q == 0)%Q -> ~ (0 < q)%Q.
Proof. intros E L. rewrite E in L. exact (Qlt_irrefl 0 L). Qed.

(** ** [cross] and [Left_turn_2] over the rational numbers *)

(** X12.  For points whose coordinates have non-zero denominators, a cross
    product that is computed has a non-zero denominator and stands for
    [p.x * q.y - q.x * p.y] over the rational numbers. *)
Theorem cross_exact (p q : FracPoint2) (t : Frac) :
  nonzero_den p -> nonzero_den q -> cross p q = Some t ->
  den t <> 0 /\
  (value t == value (x p) * value (y q) - value (x q) * value (y p))%Q.
Proof. apply cross_value. Qed.

Lemma cross_exact_witness :
  let p := mkFracPoint2 (mkFrac 1 2) (mkFrac 1 3) in
  let q := mkFracPoint2 (mkFrac 3 (-4)) (mkFrac 2 5) in
  cross p q = Some (mkFrac (-9) (-20)) /\
  (value (mkFrac (-9) (-20))
   == value (x p) * value (y q) - value (x q) * value (y p))%Q.
Proof.
  intros p q. split; [reflexivity|].
  apply (cross_exact p q (mkFrac (-9) (-20)));
    [split; simpl; lia | split; simpl; lia | reflexivity].
Defined.

(** X13.  For points whose coordinates have non-zero denominators, of
    either sign, [Left_turn_2(p0, p1, p2)] returns [true] exactly when the
    orientation determinant
    [(x1 - x0) * (y2 - y0) - (x2 - x0) * (y1 - y0)] of the three rational
    points is strictly positive. *)
Theorem Left_turn_2_exact (p0 p1 p2 : FracPoint2) (t : bool) :
  nonzero_den p0 -> nonzero_den p1 -> nonzero_den p2 ->
  Left_turn_2 p0 p1 p2 = Some t ->
  (t = true <-> (0 < det p0 p1 p2)%Q).
Proof. apply Left_turn_2_value. Qed.

Lemma Left_turn_2_exact_witness :
  let p0 := mkFracPoint2 (mkFrac 0 1) (mkFrac 0 1) in
  let p1 := mkFracPoint2 (mkFrac 1 1) (mkFrac 0 1) in
  let p2 := mkFracPoint2 (mkFrac (-1) (-2)) (mkFrac 1 4) in
  Left_turn_2 p0 p1 p2 = Some true /\ (0 < det p0 p1 p2)%Q.
Proof.
  intros p0 p1 p2. split; [reflexivity|].
  apply (Left_turn_2_exact p0 p1 p2 true);
    [split; simpl; lia | split; simpl; lia | split; simpl; lia
    | reflexivity | reflexivity].
Defined.

(** X14.  Rotating the three points does not change the answer: for points
    whose coordinates have non-zero denominators, whenever
    [Left_turn_2(p0, p1, p2)] and [Left_turn_2(p1, p2, p0)] both return,
    they return the same. *)
Theorem Left_turn_2_cyclic (p0 p1 p2 : FracPoint2) (t t' : bool) :
  nonzero_den p0 -> nonzero_den p1 -> nonzero_den p2 ->
  Left_turn_2 p0 p1 p2 = Some t -> Left_turn_2 p1 p2 p0 = Some t' ->
  t = t'.
Proof.
  intros H0 H1 H2 A B.
  pose proof (Left_turn_2_value _ _ _ _ H0 H1 H2 A) as IA.
  pose proof (Left_turn_2_value _ _ _ _ H1 H2 H0 B) as IB.
  rewrite <- (det_cycle p0 p1 p2) in IB.
  destruct t, t'; try reflexivity.
  - symmetry. apply IB. apply IA. reflexivity.
  - apply IA. apply IB. reflexivity.
Qed.

Lemma Left_turn_2_cyclic_witness :
  let p0 := mkFracPoint2 (mkFrac 0 1) (mkFrac 0 1) in
  let p1 := mkFracPoint2 (mkFrac 1 1) (mkFrac 0 1) in
  let p2 := mkFracPoint2 (mkFrac 1 2) (mkFrac 1 4) in
  Left_turn_2 p0 p1 p2 = Some true /\ Left_turn_2 p1 p2 p0 = Some true.
Proof.
  intros p0 p1 p2.
  assert (A : Left_turn_2 p0 p1 p2 = Some true) by reflexivity.
  split; [exact A|].
  destruct (Left_turn_2 p1 p2 p0) as [t'|] eqn:B; [|discriminate].
  f_equal. symmetry.
  apply (Left_turn_2_cyclic p0 p1 p2 true t');
    [split; simpl; lia | split; simpl; lia | split; simpl; lia
    | exact A | exact B].
Defined.

(** X15.  A triple with a repeated point is never a left turn: for points
    whose coordinates have non-zero denominators, when [Equal_2] finds two
    of the three points equal, [Left_turn_2] does not return [true]. *)
Theorem Left_turn_2_repeated_point (p0 p1 p2 : FracPoint2) (t : bool) :
  nonzero_den p0 -> nonzero_den p1 -> nonzero_den p2 ->
  Equal_2 p0 p1 = Some true \/ Equal_2 p0 p2 = Some true \/
  Equal_2 p1 p2 = Some true ->
  Left_turn_2 p0 p1 p2 = Some t -> t = false.
Proof.
  intros H0 H1 H2 He H. apply not_true_is_false. intro Ht.
  apply (Left_turn_2_value _ _ _ _ H0 H1 H2 H) in Ht.
  revert Ht. apply not_Qlt_0. unfold det.
  destruct He as [He|[He|He]].
  - destruct (Equal_2_value _ _ H0 H1 He) as [Ex Ey]. rewrite Ex, Ey. ring.
  - destruct (Equal_2_value _ _ H0 H2 He) as [Ex Ey]. rewrite Ex, Ey. ring.
  - destruct (Equal_2_value _ _ H1 H2 He) as [Ex Ey]. rewrite Ex, Ey. ring.
Qed.

Lemma Left_turn_2_repeated_point_witness :
  let p0 := mkFracPoint2 (mkFrac 0 1) (mkFrac 0 1) in
  let p1 := mkFracPoint2 (mkFrac 1 2) (mkFrac 1 4) in
  let p2 := mkFracPoint2 (mkFrac 2 4) (mkFrac (-1) (-4)) in
  Equal_2 p1 p2 = Some true /\ Left_turn_2 p0 p1 p2 = Some false.
Proof.
  intros p0 p1 p2.
  assert (E : Equal_2 p1 p2 = Some true) by reflexivity.
  split; [exact E|].
  destruct (Left_turn_2 p0 p1 p2) as [t|] eqn:L; [|discriminate].
  f_equal.
  apply (Left_turn_2_repeated_point p0 p1 p2 t);
    [split; simpl; lia | split; simpl; lia | split; simpl; lia
    | right; right; exact E | exact L].
Defined.

Lemma Frac_eq_of_value (a b : Frac) (t : bool) :
  den a <> 0 -> den b <> 0 -> (value a == value b)%Q ->
  Frac_eq a b = Some t -> t = true.
Proof.
  intros Ha Hb V H. apply Frac_eq_inv in H. subst t.
  apply Z.eqb_eq. apply (value_eq_cross a b Ha Hb). exact V.
Qed.

Lemma value_nonzero (a : Frac) :
  den a <> 0 -> num a <> 0 -> ~ (value a == 0)%Q.
Proof.
  intros Hd Hn H. apply Hn.
  assert (E : (value a == value (mkFrac 0 1))%Q) by (rewrite H; reflexivity).
  apply (value_eq_cross a (mkFrac 0 1) Hd) in E; simpl in *; lia.
Qed.

(** ** Round trips and ring laws *)

(** X16.  Subtraction undoes addition and addition undoes subtraction: for
    non-zero denominators, [(a + b) - b == a] and [(a - b) + b == a]
    whenever they are computed. *)
Theorem Frac_add_sub_round_trip (a b : Frac) :
  den a <> 0 -> den b <> 0 ->
  (forall s r t, Frac_add a b = Some s -> Frac_sub s b = Some r ->
                 Frac_eq r a = Some t -> t = true) /\
  (forall s r t, Frac_sub a b = Some s -> Frac_add s b = Some r ->
                 Frac_eq r a = Some t -> t = true).
Proof.
  intros Ha Hb. split; intros s r t Hs Hr Ht.
  - destruct (value_add _ _ _ Ha Hb Hs) as [Ds Vs].
    destruct (value_sub _ _ _ Ds Hb Hr) as [Dr Vr].
    apply (Frac_eq_of_value r a t Dr Ha); [|exact Ht].
    rewrite Vr, Vs. ring.
  - destruct (value_sub _ _ _ Ha Hb Hs) as [Ds Vs].
    destruct (value_add _ _ _ Ds Hb Hr) as [Dr Vr].
    apply (Frac_eq_of_value r a t Dr Ha); [|exact Ht].
    rewrite Vr, Vs. ring.
Qed.

Lemma Frac_add_sub_round_trip_witness :
  Frac_add (mkFrac 2 4) (mkFrac 1 3) = Some (mkFrac 5 6) /\
  Frac_sub (mkFrac 5 6) (mkFrac 1 3) = Some (mkFrac 1 2) /\
  exists t, Frac_eq (mkFrac 1 2) (mkFrac 2 4) = Some t /\ t = true.
Proof.
  repeat (split; [reflexivity|]).
  exists true. split; [reflexivity|].
  apply (proj1 (Frac_add_sub_round_trip (mkFrac 2 4) (mkFrac 1 3)
                  ltac:(simpl; lia) ltac:(simpl; lia))
           (mkFrac 5 6) (mkFrac 1 2) true); reflexivity.
Defined.

(** X17.  Division undoes multiplication and multiplication undoes
    division: for non-zero denominators and a non-zero numerator of [b],
    [(a * b) / b == a] and [(a / b) * b == a] whenever they are computed. *)
Theorem Frac_mul_div_round_trip (a b : Frac) :
  den a <> 0 -> den b <> 0 -> num b <> 0 ->
  (forall s r t, Frac_mul a b = Some s -> Frac_div s b = Some r ->
                 Frac_eq r a = Some t -> t = true) /\
  (forall s r t, Frac_div a b = Some s -> Frac_mul s b = Some r ->
                 Frac_eq r a = Some t -> t = true).
Proof.
  intros Ha Hb Hn. pose proof (value_nonzero b Hb Hn) as Hv.
  split; intros s r t Hs Hr Ht.
  - destruct (value_mul _ _ _ Ha Hb Hs) as [Ds Vs].
    destruct (value_div _ _ _ Ds Hb Hn Hr) as [Dr Vr].
    apply (Frac_eq_of_value r a t Dr Ha); [|exact Ht].
    rewrite Vr, Vs. field. exact Hv.
  - destruct (value_div _ _ _ Ha Hb Hn Hs) as [Ds Vs].
    destruct (value_mul _ _ _ Ds Hb Hr) as [Dr Vr].
    apply (Frac_eq_of_value r a t Dr Ha); [|exact Ht].
    rewrite Vr, Vs. field. exact Hv.
Qed.

Lemma Frac_mul_div_round_trip_witness :
  Frac_div (mkFrac 2 4) (mkFrac (-1) 3) = Some (mkFrac 3 (-2)) /\
  Frac_mul (mkFrac 3 (-2)) (mkFrac (-1) 3) = Some (mkFrac (-1) (-2)) /\
  exists t, Frac_eq (mkFrac (-1) (-2)) (mkFrac 2 4) = Some t /\ t = true.
Proof.
  repeat (split; [reflexivity|]).
  exists true. split; [reflexivity|].
  apply (proj2 (Frac_mul_div_round_trip (mkFrac 2 4) (mkFrac (-1) 3)
                  ltac:(simpl; lia) ltac:(simpl; lia) ltac:(simpl; lia))
           (mkFrac 3 (-2)) (mkFrac (-1) (-2)) true); reflexivity.
Defined.

(** X18.  [+] and [*] are associative up to [==]: for non-zero
    denominators, [(a + b) + c == a + (b + c)] and
    [(a * b) * c == a * (b * c)] whenever both sides are computed. *)
Theorem Frac_add_mul_associative (a b c : Frac) :
  den a <> 0 -> den b <> 0 -> den c <> 0 ->
  (forall ab l bc r t,
     Frac_add a b = Some ab -> Frac_add ab c = Some l ->
     Frac_add b c = Some bc -> Frac_add a bc = Some r ->
     Frac_eq l r = Some t -> t = true) /\
  (forall ab l bc r t,
     Frac_mul a b = Some ab -> Frac_mul ab c = Some l ->
     Frac_mul b c = Some bc -> Frac_mul a bc = Some r ->
     Frac_eq l r = Some t -> t = true).
Proof.
  intros Ha Hb Hc. split; intros ab l bc r t Hab Hl Hbc Hr Ht.
  - destruct (value_add _ _ _ Ha Hb Hab) as [Dab Vab].
    destruct (value_add _ _ _ Dab Hc Hl) as [Dl Vl].
    destruct (value_add _ _ _ Hb Hc Hbc) as [Dbc Vbc].
    destruct (value_add _ _ _ Ha Dbc Hr) as [Dr Vr].
    apply (Frac_eq_of_value l r t Dl Dr); [|exact Ht].
    rewrite Vl, Vab, Vr, Vbc. ring.
  - destruct (value_mul _ _ _ Ha Hb Hab) as [Dab Vab].
    destruct (value_mul _ _ _ Dab Hc Hl) as [Dl Vl].
    destruct (value_mul _ _ _ Hb Hc Hbc) as [Dbc Vbc].
    destruct (value_mul _ _ _ Ha Dbc Hr) as [Dr Vr].
    apply (Frac_eq_of_value l r t Dl Dr); [|exact Ht].
    rewrite Vl, Vab, Vr, Vbc. ring.
Qed.

Lemma Frac_add_mul_associative_witness :
  Frac_add (mkFrac 1 2) (mkFrac 1 3) = Some (mkFrac 5 6) /\
  Frac_add (mkFrac 5 6) (mkFrac 1 (-6)) = Some (mkFrac (-2) (-3)) /\
  Frac_add (mkFrac 1 3) (mkFrac 1 (-6)) = Some (mkFrac (-1) (-6)) /\
  Frac_add (mkFrac 1 2) (mkFrac (-1) (-6)) = Some (mkFrac (-2) (-3)) /\
  exists t, Frac_eq (mkFrac (-2) (-3)) (mkFrac (-2) (-3)) = Some t /\ t = true.
Proof.
  repeat (split; [reflexivity|]).
  exists true. split; [reflexivity|].
  apply (proj1 (Frac_add_mul_associative (mkFrac 1 2) (mkFrac 1 3)
                  (mkFrac 1 (-6))
                  ltac:(simpl; lia) ltac:(simpl; lia) ltac:(simpl; lia))
           (mkFrac 5 6) (mkFrac (-2) (-3)) (mkFrac (-1) (-6))
           (mkFrac (-2) (-3)) true); reflexivity.
Defined.

(** X19.  [*] distributes over [+] up to [==]: for non-zero denominators,
    [a * (b + c) == a * b + a * c] whenever both sides are computed. *)
Theorem Frac_mul_distributes (a b c : Frac) :
  den a <> 0 -> den b <> 0 -> den c <> 0 ->
  forall bc l ab ac r t,
    Frac_add b c = Some bc -> Frac_mul a bc = Some l ->
    Frac_mul a b = Some ab -> Frac_mul a c = Some ac ->
    Frac_add ab ac = Some r ->
    Frac_eq l r = Some t -> t = true.
Proof.
  intros Ha Hb Hc bc l ab ac r t Hbc Hl Hab Hac Hr Ht.
  destruct (value_add _ _ _ Hb Hc Hbc) as [Dbc Vbc].
  destruct (value_mul _ _ _ Ha Dbc Hl) as [Dl Vl].
  destruct (value_mul _ _ _ Ha Hb Hab) as [Dab Vab].
  destruct (value_mul _ _ _ Ha Hc Hac) as [Dac Vac].
  destruct (value_add _ _ _ Dab Dac Hr) as [Dr Vr].
  apply (Frac_eq_of_value l r t Dl Dr); [|exact Ht].
  rewrite Vl, Vbc, Vr, Vab, Vac. ring.
Qed.

Lemma Frac_mul_distributes_witness :
  Frac_add (mkFrac 1 2) (mkFrac 1 3) = Some (mkFrac 5 6) /\
  Frac_mul (mkFrac 3 5) (mkFrac 5 6) = Some (mkFrac 1 2) /\
  Frac_mul (mkFrac 3 5) (mkFrac 1 2) = Some (mkFrac 3 10) /\
  Frac_mul (mkFrac 3 5) (mkFrac 1 3) = Some (mkFrac 1 5) /\
  Frac_add (mkFrac 3 10) (mkFrac 1 5) = Some (mkFrac 1 2) /\
  exists t, Frac_eq (mkFrac 1 2) (mkFrac 1 2) = Some t /\ t = true.
Proof.
  repeat (split; [reflexivity|]).
  exists true. split; [reflexivity|].
  apply (Frac_mul_distributes (mkFrac 3 5) (mkFrac 1 2) (mkFrac 1 3)
           ltac:(simpl; lia) ltac:(simpl; lia) ltac:(simpl; lia)
           (mkFrac 5 6) (mkFrac 1 2) (mkFrac 3 10) (mkFrac 1 5)
           (mkFrac 1 2) true); reflexivity.
Defined.

(** ** Results are fixed points of the reduction *)

Lemma reduce_range (n d : Z) (r : Frac) :
  LL.in_ll n = true -> LL.in_ll d = true -> reduce n d = Some r ->
  (LL.in_ll (num r) = true /\ num r <> LL.ll_min) /\
  (LL.in_ll (den r) = true /\ den r <> LL.ll_min).
Proof.
  intros Hn Hd H. destruct (reduce_defined_inv _ _ _ H) as [Mn Md].
  apply reduce_inv in H. subst r. unfold lowest.
  destruct (Z.eqb_spec (Z.gcd n d) 0) as [Hz|Hz]; simpl; [tauto|].
  pose proof (quot_gcd_between n d) as Bn.
  pose proof (quot_gcd_between d n) as Bd.
  rewrite (Z.gcd_comm d n) in Bd.
  apply in_ll_iff in Hn, Hd. rewrite !in_ll_iff.
  revert Hn Hd Mn Md.
  change LL.ll_min with (-9223372036854775808).
  change LL.ll_max with 9223372036854775807. lia.
Qed.

Lemma arith_result_range (a b r : Frac) :
  arith_result a b r ->
  (LL.in_ll (num r) = true /\ num r <> LL.ll_min) /\
  (LL.in_ll (den r) = true /\ den r <> LL.ll_min).
Proof.
  intros [H|[H|[H|H]]].
  - unfold Frac_add in H. peel H. ll_facts.
    refine (reduce_range _ _ _ _ _ H); assumption.
  - unfold Frac_sub in H. peel H. ll_facts.
    refine (reduce_range _ _ _ _ _ H); assumption.
  - unfold Frac_mul in H. peel H. ll_facts.
    refine (reduce_range _ _ _ _ _ H); assumption.
  - unfold Frac_div in H. peel H. ll_facts.
    refine (reduce_range _ _ _ _ _ H); assumption.
Qed.

Lemma lowest_idem (n d : Z) :
  lowest (num (lowest n d)) (den (lowest n d)) = lowest n d.
Proof.
  destruct (Z.eq_dec (den (lowest n d)) 0) as [Hz|Hz].
  - assert (Hd : d = 0)
      by (pose proof (lowest_den n d) as E; rewrite Hz in E; lia).
    subst d. rewrite lowest_0_r. simpl. rewrite lowest_0_r.
    rewrite Z.sgn_sgn. reflexivity.
  - pose proof (lowest_coprime n d Hz) as G.
    rewrite Z.gcd_abs_l, Z.gcd_abs_r in G.
    unfold lowest at 1. rewrite G. simpl. rewrite !Z.quot_1_r.
    destruct (lowest n d). reflexivity.
Qed.

Lemma reduce_fixed (a b r : Frac) :
  arith_result a b r -> reduce (num r) (den r) = Some r.
Proof.
  intro H. destruct (arith_result_range a b r H) as [[Rn Mn] [Rd Md]].
  rewrite (reduce_defined _ _ Rn Rd Mn Md). f_equal.
  destruct (arith_result_lowest a b r H) as (n & d & ->).
  apply lowest_idem.
Qed.

(** X20.  Every result of an arithmetic operator is a fixed point of the
    reduction: adding or subtracting the default fraction [0/1], and
    multiplying or dividing by [1/1], is defined and returns the very same
    numerator and denominator. *)
Theorem arith_result_neutral (a b r : Frac) :
  arith_result a b r ->
  Frac_add r Frac_default = Some r /\
  Frac_sub r Frac_default = Some r /\
  Frac_mul r (Frac_of_ll 1) = Some r /\
  Frac_div r (Frac_of_ll 1) = Some r.
Proof.
  intro H. pose proof (reduce_fixed a b r H) as F.
  destruct (arith_result_range a b r H) as [[Rn _] [Rd _]].
  unfold Frac_add, Frac_sub, Frac_mul, Frac_div, LL.mul, LL.add, LL.sub.
  unfold Frac_default, Frac_of_ll. simpl num. simpl den.
  rewrite !Z.mul_1_r, !Z.mul_0_r.
  rewrite (ll_in_range _ Rn), (ll_in_range _ Rd).
  change (LL.ll 0) with (Some 0). simpl.
  rewrite Z.add_0_r, Z.sub_0_r, (ll_in_range _ Rn). simpl.
  repeat split; exact F.
Qed.

Lemma arith_result_neutral_witness :
  arith_result (mkFrac 1 2) (mkFrac (-3) 4) (mkFrac 2 (-3)) /\
  Frac_add (mkFrac 2 (-3)) Frac_default = Some (mkFrac 2 (-3)).
Proof.
  assert (H : arith_result (mkFrac 1 2) (mkFrac (-3) 4) (mkFrac 2 (-3)))
    by (right; right; right; reflexivity).
  split; [exact H|].
  exact (proj1 (arith_result_neutral _ _ _ H)).
Defined.

(** ** Vector operations on points *)

Lemma FracPoint2_add_value (p q r : FracPoint2) :
  nonzero_den p -> nonzero_den q -> FracPoint2_add p q = Some r ->
  nonzero_den r /\
  (value (x r) == value (x p) + value (x q))%Q /\
  (value (y r) == value (y p) + value (y q))%Q.
Proof.
  intros [Hpx Hpy] [Hqx Hqy] H. unfold FracPoint2_add in H. peel H.
  inversion H; subst r; simpl.
  destruct (value_add _ _ _ Hpx Hqx E) as [Dx Vx].
  destruct (value_add _ _ _ Hpy Hqy E0) as [Dy Vy].
  repeat split; assumption.
Qed.

Lemma FracPoint2_scale_value (s : Frac) (p r : FracPoint2) :
  den s <> 0 -> nonzero_den p -> FracPoint2_scale_l s p = Some r ->
  nonzero_den r /\
  (value (x r) == value s * value (x p))%Q /\
  (value (y r) == value s * value (y p))%Q.
Proof.
  intros Hs [Hpx Hpy] H. unfold FracPoint2_scale_l in H. peel H.
  inversion H; subst r; simpl.
  destruct (value_mul _ _ _ Hs Hpx E) as [Dx Vx].
  destruct (value_mul _ _ _ Hs Hpy E0) as [Dy Vy].
  repeat split; assumption.
Qed.

Lemma FracPoint2_div_value (p : FracPoint2) (s : Frac) (r : FracPoint2) :
  nonzero_den p -> den s <> 0 -> num s <> 0 ->
  FracPoint2_div p s = Some r ->
  nonzero_den r /\
  (value (x r) == value (x p) / value s)%Q /\
  (value (y r) == value (y p) / value s)%Q.
Proof.
  intros [Hpx Hpy] Hs Hn H. unfold FracPoint2_div in H. peel H.
  inversion H; subst r; simpl.
  destruct (value_div _ _ _ Hpx Hs Hn E) as [Dx Vx].
  destruct (value_div _ _ _ Hpy Hs Hn E0) as [Dy Vy].
  repeat split; assumption.
Qed.

Lemma Equal_2_of_value (p q : FracPoint2) (t : bool) :
  nonzero_den p -> nonzero_den q ->
  (value (x p) == value (x q))%Q -> (value (y p) == value (y q))%Q ->
  Equal_2 p q = Some t -> t = true.
Proof.
  intros [Hpx Hpy] [Hqx Hqy] Vx Vy H. apply Equal_2_inv in H. subst t.
  apply andb_true_iff. split; apply Z.eqb_eq.
  - apply (value_eq_cross _ _ Hpx Hqx). exact Vx.
  - apply (value_eq_cross _ _ Hpy Hqy). exact Vy.
Qed.

(** X21.  The vector operations are exact, coordinate by coordinate: for
    points whose coordinates have non-zero denominators, [p + q], [p - q],
    [s * p] (with [s.den()] non-zero) and [p / s] (with [s.num()] and
    [s.den()] non-zero) return points with non-zero denominators whose
    coordinates stand for the sums, differences, products and quotients of
    the rational coordinates. *)
Theorem FracPoint2_operations_exact (p q : FracPoint2) (s : Frac) :
  nonzero_den p ->
  (forall r, nonzero_den q -> FracPoint2_add p q = Some r ->
     nonzero_den r /\
     (value (x r) == value (x p) + value (x q))%Q /\
     (value (y r) == value (y p) + value (y q))%Q) /\
  (forall r, nonzero_den q -> FracPoint2_sub p q = Some r ->
     nonzero_den r /\
     (value (x r) == value (x p) - value (x q))%Q /\
     (value (y r) == value (y p) - value (y q))%Q) /\
  (forall r, den s <> 0 -> FracPoint2_scale_l s p = Some r ->
     nonzero_den r /\
     (value (x r) == value s * value (x p))%Q /\
     (value (y r) == value s * value (y p))%Q) /\
  (forall r, den s <> 0 -> num s <> 0 -> FracPoint2_div p s = Some r ->
     nonzero_den r /\
     (value (x r) == value (x p) / value s)%Q /\
     (value (y r) == value (y p) / value s)%Q).
Proof.
  intro Hp.
  split; [intros r Hq H; exact (FracPoint2_add_value _ _ _ Hp Hq H)|].
  split; [intros r Hq H; exact (FracPoint2_sub_value _ _ _ Hp Hq H)|].
  split; [intros r Hs H; exact (FracPoint2_scale_value _ _ _ Hs Hp H)|].
  intros r Hs Hn H. exact (FracPoint2_div_value _ _ _ Hp Hs Hn H).
Qed.

Lemma FracPoint2_operations_exact_witness :
  let p := mkFracPoint2 (mkFrac 1 2) (mkFrac 3 (-4)) in
  let s := mkFrac (-2) 3 in
  FracPoint2_div p s = Some (mkFracPoint2 (mkFrac 3 (-4)) (mkFrac 9 8)) /\
  (value (mkFrac 9 8) == value (y p) / value s)%Q.
Proof.
  intros p s. split; [reflexivity|].
  assert (Hp : nonzero_den p) by (split; simpl; lia).
  destruct (proj2 (proj2 (proj2 (FracPoint2_operations_exact p p s Hp)))
              (mkFracPoint2 (mkFrac 3 (-4)) (mkFrac 9 8))
              ltac:(simpl; lia) ltac:(simpl; lia) eq_refl) as (_ & _ & Vy).
  exact Vy.
Defined.

Lemma value_div_mul (u v : Q) : ~ (v == 0)%Q -> (v * u / v == u)%Q.
Proof. intro H. field. exact H. Qed.

(** X22.  Vector round trips: for points whose coordinates have non-zero
    denominators, [Equal_2] finds [(p + q) - q] equal to [p], and, for a
    scalar [s] with non-zero numerator and denominator, [(s * p) / s] equal
    to [p], whenever these are computed. *)
Theorem FracPoint2_round_trips (p q : FracPoint2) (s : Frac) :
  nonzero_den p ->
  (nonzero_den q ->
   forall m r t, FracPoint2_add p q = Some m -> FracPoint2_sub m q = Some r ->
                 Equal_2 r p = Some t -> t = true) /\
  (den s <> 0 -> num s <> 0 ->
   forall m r t, FracPoint2_scale_l s p = Some m ->
                 FracPoint2_div m s = Some r ->
                 Equal_2 r p = Some t -> t = true).
Proof.
  intro Hp. split.
  - intros Hq m r t Hm Hr Ht.
    destruct (FracPoint2_add_value _ _ _ Hp Hq Hm) as (Dm & Mx & My).
    destruct (FracPoint2_sub_value _ _ _ Dm Hq Hr) as (Dr & Rx & Ry).
    apply (Equal_2_of_value r p t Dr Hp); [| |exact Ht].
    + rewrite Rx, Mx. ring.
    + rewrite Ry, My. ring.
  - intros Hs Hn m r t Hm Hr Ht.
    pose proof (value_nonzero s Hs Hn) as Hv.
    destruct (FracPoint2_scale_value _ _ _ Hs Hp Hm) as (Dm & Mx & My).
    destruct (FracPoint2_div_value _ _ _ Dm Hs Hn Hr) as (Dr & Rx & Ry).
    apply (Equal_2_of_value r p t Dr Hp); [| |exact Ht].
    + rewrite Rx, Mx. apply value_div_mul. exact Hv.
    + rewrite Ry, My. apply value_div_mul. exact Hv.
Qed.

Lemma FracPoint2_round_trips_witness :
  let p := mkFracPoint2 (mkFrac 2 4) (mkFrac 3 (-4)) in
  let s := mkFrac (-2) 3 in
  FracPoint2_scale_l s p
  = Some (mkFracPoint2 (mkFrac (-1) 3) (mkFrac (-1) (-2))) /\
  FracPoint2_div (mkFracPoint2 (mkFrac (-1) 3) (mkFrac (-1) (-2))) s
  = Some (mkFracPoint2 (mkFrac (-1) (-2)) (mkFrac (-3) 4)) /\
  exists t, Equal_2 (mkFracPoint2 (mkFrac (-1) (-2)) (mkFrac (-3) 4)) p
            = Some t /\ t = true.
Proof.
  intros p s. repeat (split; [reflexivity|]).
  exists true. split; [reflexivity|].
  assert (Hp : nonzero_den p) by (split; simpl; lia).
  apply (proj2 (FracPoint2_round_trips p p s Hp)
           ltac:(simpl; lia) ltac:(simpl; lia)
           (mkFracPoint2 (mkFrac (-1) 3) (mkFrac (-1) (-2)))
           (mkFracPoint2 (mkFrac (-1) (-2)) (mkFrac (-3) 4)) true);
    reflexivity.
Defined.

(** ** [Less_xy_2] over the rational numbers *)

Lemma Less_xy_2_value (p q : FracPoint2) (t : bool) :
  pos_den p -> pos_den q -> Less_xy_2 p q = Some t ->
  (t = true <->
   (value (x p) < value (x q))%Q \/
   ((value (x p) == value (x q))%Q /\ (value (y p) < value (y q))%Q)).
Proof.
  intros [Hpx Hpy] [Hqx Hqy] H. apply Less_xy_2_inv in H. subst t.
  rewrite (value_lt_iff _ _ Hpx Hqx), (value_eq_iff _ _ Hpx Hqx),
    (value_lt_iff _ _ Hpy Hqy).
  rewrite orb_true_iff, andb_true_iff, !Z.ltb_lt, Z.eqb_eq. tauto.
Qed.

(** X23.  On points whose coordinates have strictly positive denominators,
    [Less_xy_2(p, q)] returns [true] exactly when [p] comes before [q] in
    the lexicographic order of the rational coordinates: [p.x < q.x], or
    [p.x = q.x] and [p.y < q.y]. *)
Theorem Less_xy_2_exact (p q : FracPoint2) (t : bool) :
  pos_den p -> pos_den q -> Less_xy_2 p q = Some t ->
  (t = true <->
   (value (x p) < value (x q))%Q \/
   ((value (x p) == value (x q))%Q /\ (value (y p) < value (y q))%Q)).
Proof. apply Less_xy_2_value. Qed.

Lemma Less_xy_2_exact_witness :
  let p := mkFracPoint2 (mkFrac 2 4) (mkFrac 1 3) in
  let q := mkFracPoint2 (mkFrac 1 2) (mkFrac 2 5) in
  Less_xy_2 p q = Some true /\
  ((value (x p) < value (x q))%Q \/
   ((value (x p) == value (x q))%Q /\ (value (y p) < value (y q))%Q)).
Proof.
  intros p q. split; [reflexivity|].
  apply (Less_xy_2_exact p q true);
    [split; simpl; lia | split; simpl; lia | reflexivity | reflexivity].
Defined.

Lemma pos_den_nonzero (p : FracPoint2) : pos_den p -> nonzero_den p.
Proof. intros [Hx Hy]. split; lia. Qed.

(** X24.  [Less_xy_2] cannot tell apart points that [Equal_2] finds equal:
    on points whose coordinates have strictly positive denominators, when
    [Equal_2(p, p')] and [Equal_2(q, q')] return [true], [Less_xy_2(p, q)]
    and [Less_xy_2(p', q')] return the same whenever both return. *)
Theorem Less_xy_2_respects_Equal_2 (p p' q q' : FracPoint2) (t t' : bool) :
  pos_den p -> pos_den p' -> pos_den q -> pos_den q' ->
  Equal_2 p p' = Some true -> Equal_2 q q' = Some true ->
  Less_xy_2 p q = Some t -> Less_xy_2 p' q' = Some t' -> t = t'.
Proof.
  intros Hp Hp' Hq Hq' Ep Eq L L'.
  destruct (Equal_2_value p p' (pos_den_nonzero _ Hp) (pos_den_nonzero _ Hp')
              Ep) as [Px Py].
  destruct (Equal_2_value q q' (pos_den_nonzero _ Hq) (pos_den_nonzero _ Hq')
              Eq) as [Qx Qy].
  pose proof (Less_xy_2_value p q t Hp Hq L) as I.
  pose proof (Less_xy_2_value p' q' t' Hp' Hq' L') as I'.
  rewrite Px, Py, Qx, Qy in I.
  destruct t, t'; try reflexivity.
  - symmetry. apply I'. apply I. reflexivity.
  - apply I. apply I'. reflexivity.
Qed.

Lemma Less_xy_2_respects_Equal_2_witness :
  let p := mkFracPoint2 (mkFrac 1 2) (mkFrac 1 3) in
  let p' := mkFracPoint2 (mkFrac 2 4) (mkFrac 3 9) in
  let q := mkFracPoint2 (mkFrac 2 3) (mkFrac 0 1) in
  Equal_2 p p' = Some true /\
  Less_xy_2 p q = Some true /\
  exists t', Less_xy_2 p' q = Some t' /\ true = t'.
Proof.
  intros p p' q. repeat (split; [reflexivity|]).
  exists true. split; [reflexivity|].
  apply (Less_xy_2_respects_Equal_2 p p' q q true true);
    try (split; simpl; lia); reflexivity.
Defined.

(** ** Freedom from overflow *)

Lemma abs_mul_lt (B u v : Z) :
  Z.abs u < B -> Z.abs v < B -> Z.abs (u * v) < B * B.
Proof.
  intros Hu Hv. rewrite Z.abs_mul.
  apply Z.mul_lt_mono_nonneg; auto using Z.abs_nonneg.
Qed.

Lemma lowest_bounded (B n d : Z) :
  Z.abs n < B -> Z.abs d < B -> bounded B (lowest n d).
Proof.
  intros Hn Hd. unfold bounded, lowest.
  destruct (Z.eqb_spec (Z.gcd n d) 0) as [Hz|Hz]; simpl; [tauto|].
  pose proof (quot_gcd_between n d) as Bn.
  pose proof (quot_gcd_between d n) as Bd.
  rewrite (Z.gcd_comm d n) in Bd. lia.
Qed.

Lemma in_ll_abs (z : Z) : Z.abs z < 2 ^ 63 -> LL.in_ll z = true.
Proof.
  intro H. apply in_ll_iff. revert H.
  change LL.ll_min with (-9223372036854775808).
  change LL.ll_max with 9223372036854775807.
  change (2 ^ 63) with 9223372036854775808. lia.
Qed.

Lemma not_ll_min_abs (z : Z) : Z.abs z < 2 ^ 63 -> z <> LL.ll_min.
Proof.
  intros H E. revert H. rewrite E.
  change LL.ll_min with (-9223372036854775808).
  change (2 ^ 63) with 9223372036854775808. lia.
Qed.

Lemma reduce_bounded (B n d : Z) :
  B <= 2 ^ 63 -> Z.abs n < B -> Z.abs d < B ->
  exists r, reduce n d = Some r /\ bounded B r.
Proof.
  intros HB Hn Hd. exists (lowest n d). split.
  - apply reduce_defined;
      first [apply in_ll_abs | apply not_ll_min_abs]; lia.
  - apply lowest_bounded; assumption.
Qed.

Lemma Frac_sub_bounded (B : Z) (a b : Frac) :
  2 * (B * B) <= 2 ^ 63 -> bounded B a -> bounded B b ->
  exists r, Frac_sub a b = Some r /\ bounded (2 * (B * B)) r.
Proof.
  intros HB [An Ad] [Bn Bd].
  pose proof (abs_mul_lt B _ _ An Bd) as P1.
  pose proof (abs_mul_lt B _ _ Ad Bn) as P2.
  pose proof (abs_mul_lt B _ _ Ad Bd) as P3.
  unfold Frac_sub, LL.mul, LL.sub.
  rewrite (ll_in_range (num a * den b)) by (apply in_ll_abs; lia).
  rewrite (ll_in_range (den a * num b)) by (apply in_ll_abs; lia). cbn [UB.bind].
  rewrite (ll_in_range (num a * den b - den a * num b))
    by (apply in_ll_abs; lia).
  rewrite (ll_in_range (den a * den b)) by (apply in_ll_abs; lia). cbn [UB.bind].
  apply reduce_bounded; lia.
Qed.

Lemma Frac_mul_bounded (B : Z) (a b : Frac) :
  B * B <= 2 ^ 63 -> bounded B a -> bounded B b ->
  exists r, Frac_mul a b = Some r /\ bounded (B * B) r.
Proof.
  intros HB [An Ad] [Bn Bd].
  pose proof (abs_mul_lt B _ _ An Bn) as P1.
  pose proof (abs_mul_lt B _ _ Ad Bd) as P2.
  unfold Frac_mul, LL.mul.
  rewrite (ll_in_range (num a * num b)) by (apply in_ll_abs; lia).
  rewrite (ll_in_range (den a * den b)) by (apply in_ll_abs; lia). cbn [UB.bind].
  apply reduce_bounded; lia.
Qed.

Lemma FracPoint2_sub_bounded (B : Z) (p q : FracPoint2) :
  2 * (B * B) <= 2 ^ 63 -> bounded_point B p -> bounded_point B q ->
  exists r, FracPoint2_sub p q = Some r /\ bounded_point (2 * (B * B)) r.
Proof.
  intros HB [Px Py] [Qx Qy].
  destruct (Frac_sub_bounded B _ _ HB Px Qx) as (rx & Ex & Bx).
  destruct (Frac_sub_bounded B _ _ HB Py Qy) as (ry & Ey & By).
  exists (mkFracPoint2 rx ry). unfold FracPoint2_sub. rewrite Ex, Ey.
  split; [reflexivity | split; assumption].
Qed.

Lemma cross_bounded (B : Z) (p q : FracPoint2) :
  2 * ((B * B) * (B * B)) <= 2 ^ 63 ->
  bounded_point B p -> bounded_point B q ->
  exists t, cross p q = Some t.
Proof.
  intros HB [Px Py] [Qx Qy].
  assert (HB' : B * B <= 2 ^ 63) by nia.
  destruct (Frac_mul_bounded B _ _ HB' Px Qy) as (l & El & Bl).
  destruct (Frac_mul_bounded B _ _ HB' Qx Py) as (r & Er & Br).
  destruct (Frac_sub_bounded (B * B) _ _ HB Bl Br) as (t & Et & _).
  exists t. unfold cross. rewrite El, Er. exact Et.
Qed.

(** X25.  [Left_turn_2] never overflows on small coordinates: when every
    numerator and denominator of the three points is below [2^7] in
    absolute value, [Left_turn_2] returns a result. *)
Theorem Left_turn_2_defined (p0 p1 p2 : FracPoint2) :
  bounded_point (2 ^ 7) p0 -> bounded_point (2 ^ 7) p1 ->
  bounded_point (2 ^ 7) p2 ->
  exists t, Left_turn_2 p0 p1 p2 = Some t.
Proof.
  intros H0 H1 H2.
  assert (HB : 2 * (2 ^ 7 * 2 ^ 7) <= 2 ^ 63) by (intro C; discriminate C).
  assert (HC : 2 * ((2 ^ 15 * 2 ^ 15) * (2 ^ 15 * 2 ^ 15)) <= 2 ^ 63)
    by (intro C; discriminate C).
  destruct (FracPoint2_sub_bounded (2 ^ 7) p1 p0 HB H1 H0) as (u & Eu & Bu).
  destruct (FracPoint2_sub_bounded (2 ^ 7) p2 p0 HB H2 H0) as (v & Ev & Bv).
  change (2 * (2 ^ 7 * 2 ^ 7)) with (2 ^ 15) in Bu, Bv.
  destruct (cross_bounded (2 ^ 15) u v HC Bu Bv) as (tv & Et).
  exists (positive tv). unfold Left_turn_2. rewrite Eu, Ev.
  cbn [UB.bind]. rewrite Et. reflexivity.
Qed.

Lemma Left_turn_2_defined_witness :
  exists t,
    Left_turn_2 (mkFracPoint2 (mkFrac 127 (-127)) (mkFrac (-127) 126))
                (mkFracPoint2 (mkFrac 125 124) (mkFrac 123 122))
                (mkFracPoint2 (mkFrac (-121) 120) (mkFrac 119 (-118)))
    = Some t.
Proof.
  apply Left_turn_2_defined; split; split; simpl; lia.
Defined.

(** X26.  The operators of [Frac] never overflow on operands whose
    numerator and denominator fit in 32 bits: the four arithmetic operators
    return the computed pair in lowest terms and the five comparisons
    return the test on the cross products. *)
Theorem Frac_operators_defined_on_small (a b : Frac) :
  small a -> small b ->
  (Frac_add a b
   = Some (lowest (num a * den b + den a * num b) (den a * den b)) /\
   Frac_sub a b
   = Some (lowest (num a * den b - den a * num b) (den a * den b)) /\
   Frac_mul a b = Some (lowest (num a * num b) (den a * den b)) /\
   Frac_div a b = Some (lowest (num a * den b) (den a * num b))) /\
  (Frac_lt a b = Some (num a * den b <? num b * den a) /\
   Frac_le a b = Some (num a * den b <=? num b * den a) /\
   Frac_gt a b = Some (num a * den b >? num b * den a) /\
   Frac_ge a b = Some (num a * den b >=? num b * den a) /\
   Frac_eq a b = Some (num a * den b =? num b * den a)).
Proof.
  intros Ha Hb. split.
  - repeat split;
      [ apply Frac_add_small | apply Frac_sub_small
      | apply Frac_mul_small | apply Frac_div_small ]; assumption.
  - destruct (Frac_compare_small a b Ha Hb) as [Hl Hr].
    repeat split;
      [ apply Frac_lt_defined | apply Frac_le_defined | apply Frac_gt_defined
      | apply Frac_ge_defined | apply Frac_eq_defined ]; assumption.
Qed.

Lemma Frac_operators_defined_on_small_witness :
  Frac_mul (mkFrac 2147483647 (-2147483647)) (mkFrac (-2147483647) 2147483646)
  = Some (mkFrac (-2147483647) (-2147483646)).
Proof.
  assert (Ha : small (mkFrac 2147483647 (-2147483647)))
    by (split; simpl; lia).
  assert (Hb : small (mkFrac (-2147483647) 2147483646))
    by (split; simpl; lia).
  destruct (Frac_operators_defined_on_small _ _ Ha Hb) as [(_ & _ & Hm & _) _].
  rewrite Hm. vm_compute. reflexivity.
Defined.

Lemma Less_xy_2_small (p q : FracPoint2) :
  small (x p) -> small (y p) -> small (x q) -> small (y q) ->
  exists t, Less_xy_2 p q = Some t.
Proof.
  intros Hpx Hpy Hqx Hqy.
  destruct (Frac_compare_small _ _ Hpx Hqx) as [Xl Xr].
  destruct (Frac_compare_small _ _ Hpy Hqy) as [Yl Yr].
  unfold Less_xy_2.
  rewrite (Frac_lt_defined _ _ Xl Xr), (Frac_eq_defined _ _ Xl Xr),
    (Frac_lt_defined _ _ Yl Yr). simpl.
  destruct (_ <? _); [eexists; reflexivity|]. simpl.
  destruct (_ =? _); eexists; reflexivity.
Qed.

Lemma Equal_2_small (p q : FracPoint2) :
  small (x p) -> small (y p) -> small (x q) -> small (y q) ->
  exists t, Equal_2 p q = Some t.
Proof.
  intros Hpx Hpy Hqx Hqy.
  destruct (Frac_compare_small _ _ Hpx Hqx) as [Xl Xr].
  destruct (Frac_compare_small _ _ Hpy Hqy) as [Yl Yr].
  unfold Equal_2.
  rewrite (Frac_eq_defined _ _ Xl Xr), (Frac_eq_defined _ _ Yl Yr). simpl.
  destruct (_ =? _); eexists; reflexivity.
Qed.

(** X27.  [Less_xy_2] and [Equal_2] never overflow on points whose
    numerators and denominators fit in 32 bits: both return a result. *)
Theorem Less_xy_2_Equal_2_defined_on_small (p q : FracPoint2) :
  small (x p) -> small (y p) -> small (x q) -> small (y q) ->
  (exists t, Less_xy_2 p q = Some t) /\ (exists t, Equal_2 p q = Some t).
Proof.
  intros Hpx Hpy Hqx Hqy.
  split; [apply Less_xy_2_small | apply Equal_2_small]; assumption.
Qed.

Lemma Less_xy_2_Equal_2_defined_on_small_witness :
  let p := mkFracPoint2 (mkFrac 2147483647 2147483646) (mkFrac 1 2) in
  let q := mkFracPoint2 (mkFrac 2147483646 2147483645) (mkFrac 1 3) in
  (exists t, Less_xy_2 p q = Some t) /\ (exists t, Equal_2 p q = Some t).
Proof.
  intros p q.
  apply Less_xy_2_Equal_2_defined_on_small; split; simpl; lia.
Defined.

(** ** Zero denominators *)

Lemma lowest_den_zero_iff (n d : Z) : den (lowest n d) = 0 <-> d = 0.
Proof.
  rewrite <- (Z.sgn_null_iff (den (lowest n d))), lowest_den_sgn.
  apply Z.sgn_null_iff.
Qed.

Lemma Frac_sub_den_zero (a b r : Frac) :
  Frac_sub a b = Some r -> (den r = 0 <-> den a = 0 \/ den b = 0).
Proof.
  intro H. apply Frac_sub_inv in H. subst r.
  rewrite lowest_den_zero_iff. lia.
Qed.

Lemma Frac_mul_den_zero (a b r : Frac) :
  Frac_mul a b = Some r -> (den r = 0 <-> den a = 0 \/ den b = 0).
Proof.
  intro H. apply Frac_mul_inv in H. subst r.
  rewrite lowest_den_zero_iff. lia.
Qed.

(** X28.  A zero denominator is absorbing: a result of [+], [-] or [*] has
    a zero denominator exactly when one of the operands has, and a result
    of [/] exactly when [a.den()] or [b.num()] is zero. *)
Theorem zero_denominator_absorbing (a b r : Frac) :
  (Frac_add a b = Some r -> (den r = 0 <-> den a = 0 \/ den b = 0)) /\
  (Frac_sub a b = Some r -> (den r = 0 <-> den a = 0 \/ den b = 0)) /\
  (Frac_mul a b = Some r -> (den r = 0 <-> den a = 0 \/ den b = 0)) /\
  (Frac_div a b = Some r -> (den r = 0 <-> den a = 0 \/ num b = 0)).
Proof.
  split; [|split; [|split]]; intro H;
    [ apply Frac_add_inv in H | apply Frac_sub_inv in H
    | apply Frac_mul_inv in H | apply Frac_div_inv in H ];
    subst r; rewrite lowest_den_zero_iff; lia.
Qed.

Lemma zero_denominator_absorbing_witness :
  Frac_div (mkFrac 3 4) (mkFrac 5 0) = Some (mkFrac 0 1) /\
  (den (mkFrac 0 1) = 0 <-> den (mkFrac 3 4) = 0 \/ num (mkFrac 5 0) = 0).
Proof.
  split; [reflexivity|].
  apply (proj2 (proj2 (proj2 (zero_denominator_absorbing
           (mkFrac 3 4) (mkFrac 5 0) (mkFrac 0 1))))).
  reflexivity.
Defined.

Lemma positive_den_zero (t : Frac) : den t = 0 -> positive t = false.
Proof.
  intro H. apply not_true_is_false. intro P.
  apply positive_iff_sign in P. lia.
Qed.

(** X29.  [Left_turn_2] answers [false] whenever a coordinate of one of the
    three points has a zero denominator: the zero denominator reaches the
    cross product, which [positive()] then rejects. *)
Theorem Left_turn_2_zero_denominator (p0 p1 p2 : FracPoint2) (t : bool) :
  ~ (nonzero_den p0 /\ nonzero_den p1 /\ nonzero_den p2) ->
  Left_turn_2 p0 p1 p2 = Some t -> t = false.
Proof.
  intros Hz H. unfold Left_turn_2 in H. peel H.
  inversion H as [Ht]. apply positive_den_zero.
  rename v into u, v0 into v, v1 into tv, E into Eu, E0 into Ev, E1 into Et.
  unfold FracPoint2_sub in Eu, Ev. peel Eu. peel Ev.
  inversion Eu as [Hu]. inversion Ev as [Hv]. clear Eu Ev.
  unfold cross in Et. peel Et.
  rewrite <- Hu, <- Hv in E3, E4. cbn [x y] in E3, E4.
  rewrite (Frac_sub_den_zero _ _ _ Et).
  rewrite (Frac_mul_den_zero _ _ _ E3), (Frac_mul_den_zero _ _ _ E4).
  rewrite (Frac_sub_den_zero _ _ _ E), (Frac_sub_den_zero _ _ _ E0),
    (Frac_sub_den_zero _ _ _ E1), (Frac_sub_den_zero _ _ _ E2).
  unfold nonzero_den in Hz.
  destruct (Z.eq_dec (den (x p0)) 0); [tauto|].
  destruct (Z.eq_dec (den (y p0)) 0); [tauto|].
  destruct (Z.eq_dec (den (x p1)) 0); [tauto|].
  destruct (Z.eq_dec (den (y p1)) 0); [tauto|].
  destruct (Z.eq_dec (den (x p2)) 0); [tauto|].
  destruct (Z.eq_dec (den (y p2)) 0); [tauto|].
  tauto.
Qed.

Lemma Left_turn_2_zero_denominator_witness :
  let p0 := mkFracPoint2 (mkFrac 0 1) (mkFrac 0 1) in
  let p1 := mkFracPoint2 (mkFrac 1 1) (mkFrac 0 1) in
  let p2 := mkFracPoint2 (mkFrac 1 2) (mkFrac 1 0) in
  exists t, Left_turn_2 p0 p1 p2 = Some t /\ t = false.
Proof.
  intros p0 p1 p2. exists false. split; [reflexivity|].
  apply (Left_turn_2_zero_denominator p0 p1 p2 false); [|reflexivity].
  unfold nonzero_den. simpl. lia.
Defined.

(** ** [Equal_2] over the rational numbers *)

Lemma Equal_2_defined (p q : FracPoint2) :
  LL.in_ll (num (x p) * den (x q)) = true ->
  LL.in_ll (num (x q) * den (x p)) = true ->
  LL.in_ll (num (y p) * den (y q)) = true ->
  LL.in_ll (num (y q) * den (y p)) = true ->
  Equal_2 p q
  = Some ((num (x p) * den (x q) =? num (x q) * den (x p))
          && (num (y p) * den (y q) =? num (y q) * den (y p))).
Proof.
  intros Xl Xr Yl Yr. unfold Equal_2.
  rewrite (Frac_eq_defined _ _ Xl Xr), (Frac_eq_defined _ _ Yl Yr).
  cbn [UB.bind].
  destruct (num (x p) * den (x q) =? num (x q) * den (x p)); reflexivity.
Qed.

(** C8.  [Equal_2(p, q)] returns [true] exactly when [p.x() == q.x()] and
    [p.y() == q.y()] both return [true], and [==] is the cross-multiplication
    equality of [Frac]: whatever [Equal_2] returns is the conjunction of
    [p.x.num * q.x.den = q.x.num * p.x.den] and
    [p.y.num * q.y.den = q.y.num * p.y.den], and it returns it whenever the
    four products are representable.  For coordinates with non-zero
    denominators it therefore returns [true] exactly when the coordinates
    of [p] and [q] stand for the same rational numbers, whatever their
    representation, as for [1/2] and [2/4], which are different numerator
    and denominator pairs. *)
Theorem Equal_2_componentwise (p q : FracPoint2) :
  (Equal_2 p q = Some true <->
   Frac_eq (x p) (x q) = Some true /\ Frac_eq (y p) (y q) = Some true) /\
  (forall t, Equal_2 p q = Some t ->
     t = (num (x p) * den (x q) =? num (x q) * den (x p))
         && (num (y p) * den (y q) =? num (y q) * den (y p))) /\
  (LL.in_ll (num (x p) * den (x q)) = true ->
   LL.in_ll (num (x q) * den (x p)) = true ->
   LL.in_ll (num (y p) * den (y q)) = true ->
   LL.in_ll (num (y q) * den (y p)) = true ->
   Equal_2 p q
   = Some ((num (x p) * den (x q) =? num (x q) * den (x p))
           && (num (y p) * den (y q) =? num (y q) * den (y p)))) /\
  (nonzero_den p -> nonzero_den q ->
   forall t, Equal_2 p q = Some t ->
     (t = true <->
      (value (x p) == value (x q))%Q /\ (value (y p) == value (y q))%Q)) /\
  Equal_2 (mkFracPoint2 (mkFrac 1 2) (mkFrac 3 1))
          (mkFracPoint2 (mkFrac 2 4) (mkFrac 3 1)) = Some true /\
  mkFrac 1 2 <> mkFrac 2 4.
Proof.
  split; [|split; [|split; [|split; [|split; [reflexivity | discriminate]]]]].
  - unfold Equal_2. split.
    + intro H. peel H. destruct v; [split; assumption | discriminate].
    + intros [Hx Hy]. rewrite Hx. simpl. exact Hy.
  - intros t H. apply Equal_2_inv. exact H.
  - apply Equal_2_defined.
  - intros Hp Hq t H. split.
    + intros ->. apply Equal_2_value; assumption.
    + intros [Vx Vy]. exact (Equal_2_of_value p q t Hp Hq Vx Vy H).
Qed.

Lemma Equal_2_componentwise_witness :
  let p := mkFracPoint2 (mkFrac 1 2) (mkFrac (-3) 4) in
  let q := mkFracPoint2 (mkFrac (-2) (-4)) (mkFrac 6 (-8)) in
  let r := mkFracPoint2 (mkFrac 1 2) (mkFrac 3 4) in
  nonzero_den p /\ nonzero_den q /\ nonzero_den r /\
  Equal_2 p q = Some true /\
  ((value (x p) == value (x q))%Q /\ (value (y p) == value (y q))%Q) /\
  Equal_2 p r = Some false /\
  ~ ((value (x p) == value (x r))%Q /\ (value (y p) == value (y r))%Q).
Proof.
  intros p q r.
  assert (Hp : nonzero_den p) by (split; simpl; lia).
  assert (Hq : nonzero_den q) by (split; simpl; lia).
  assert (Hr : nonzero_den r) by (split; simpl; lia).
  assert (Dq : Equal_2 p q = Some true).
  { rewrite (proj1 (proj2 (proj2 (Equal_2_componentwise p q)))
               eq_refl eq_refl eq_refl eq_refl).
    reflexivity. }
  assert (Dr : Equal_2 p r = Some false).
  { rewrite (proj1 (proj2 (proj2 (Equal_2_componentwise p r)))
               eq_refl eq_refl eq_refl eq_refl).
    reflexivity. }
  repeat (split; [assumption|]).
  split.
  - apply (proj1 (proj2 (proj2 (proj2 (Equal_2_componentwise p q))))
             Hp Hq true Dq).
    reflexivity.
  - split; [exact Dr|]. intro V.
    apply (proj1 (proj2 (proj2 (proj2 (Equal_2_componentwise p r))))
             Hp Hr false Dr) in V.
    discriminate V.
Defined.
